(** * pg-promise: event dispatch, library initialisation and namespace locking

    A shallow embedding of [lib/events.js] and [lib/index.js].

    JavaScript values live in a store of objects addressed by location, so
    that aliasing is visible: an array handed to a handler and later to the
    caller is one location.  Functions supplied by the user (the event
    handlers) are opaque: an environment gives, for each function identity,
    a transformer of the store that either returns a value or throws one.
    Library code runs in a small monad that threads the store and an
    observation log (handler calls, diagnostic-sink calls, driver calls). *)

From Stdlib Require Import ZArith String List.
From stdpp Require Import base option gmap strings list.

Local Open Scope Z_scope.
Local Open Scope string_scope.

(* ===================================================================== *)
(** ** JavaScript values, objects and the store                           *)
(* ===================================================================== *)

Module JS.

Definition loc := positive.

(** Primitive values and references.  Of the numbers, the integer-valued
    ones and [NaN] are kept: the code under study inspects numbers only for
    their truthiness and their [typeof]. *)
Inductive value :=
| Undefined
| Null
| Bool (b : bool)
| Num (n : Z)
| NaN
| BigInt (n : Z)
| Str (s : string)
| Sym (id : nat)
| Ref (l : loc).

#[global] Instance value_eq_dec : EqDecision value.
Proof. solve_decision. Defined.

(** Identities of function bodies: user functions are numbered, [Inst o] is
    the closure [inst] that [$main(o)] returns, [MainFn ns] is [$main] of a
    module whose [rootNameSpace] is [ns], [NsEnd] is [rootNameSpace.end]. *)
Inductive fn :=
| User (n : nat)
| Inst (options : value)
| MainFn (rootNameSpace : value)
| NsEnd.

Inductive kind :=
| KObject
| KArray
| KDate (t : Z)
| KFunction (f : fn)
| KTypeError
| KInternalError.

(** A data property with the two attributes that locking is about. *)
Record prop := Prop_ { pval : value; writable : bool; configurable : bool }.

(** An object: its kind, the properties visible through it, and whether
    properties may still be added to it. *)
Record object := Obj { okind : kind; props : gmap string prop; extensible : bool }.

(** A new object: extensible. *)
Definition new_object (k : kind) (ps : gmap string prop) : object := Obj k ps true.

(** The process: the object store, what was written with [console.error],
    the flag [$npm.main.suppressErrors] read by the diagnostic sink, and the
    process-wide no-locking flag read by [lock]. *)
Record state := State {
  heap : gmap loc object;
  console : list value;
  suppressErrors : value;
  noLocking : bool
}.

Inductive completion (A : Type) :=
| Return (a : A)
| Throw (v : value).
Arguments Return {A} a.
Arguments Throw {A} v.

(** What an observer of a run can see besides the final store. *)
Inductive event :=
| Called (f : fn) (this : value) (args : list value) (before : state)
| Sink (name : string) (err : value)
| Driver (query : value).

Record world := World { st : state; log : list event }.

Definition M (A : Type) : Type := world -> completion A * world.

Definition ret {A} (a : A) : M A := fun w => (Return a, w).

Definition throw {A} (v : value) : M A := fun w => (Throw v, w).

Definition bind {A B} (m : M A) (k : A -> M B) : M B :=
  fun w => match m w with
           | (Return a, w') => k a w'
           | (Throw v, w') => (Throw v, w')
           end.

(** [try { body } catch (err) { handler }] *)
Definition try_catch {A} (body : M A) (handler : value -> M A) : M A :=
  fun w => match body w with
           | (Return a, w') => (Return a, w')
           | (Throw v, w') => handler v w'
           end.

Definition get_state : M state := fun w => (Return (st w), w).

Definition emit (e : event) : M unit :=
  fun w => (Return tt, World (st w) (log w ++ [e])).

Definition set_heap (h : gmap loc object) (s : state) : state :=
  State h (console s) (suppressErrors s) (noLocking s).

(** No callee can unallocate: an object of [s] that the callee's answer
    [s'] leaves out is still there, as it was. *)
Definition retain (s s' : state) : state := set_heap (heap s' ∪ heap s) s'.

(** Lifting of a store transformer (an opaque callee) into the monad. *)
Definition lift {A} (f : state -> completion A * state) : M A :=
  fun w => let '(c, s') := f (st w) in (c, World (retain (st w) s') (log w)).

Definition modify (f : state -> state) : M unit :=
  fun w => (Return tt, World (f (st w)) (log w)).

Declare Scope js_scope.
Delimit Scope js_scope with js.
Notation "'let*' x ':=' y 'in' z" := (bind y (fun x => z))
  (at level 10, x name, y at level 100, z at level 200, only parsing) : js_scope.
Local Open Scope js_scope.

(** [ToBoolean] *)
Definition truthy (v : value) : bool :=
  match v with
  | Undefined | Null | NaN => false
  | Bool b => b
  | Num n | BigInt n => negb (Z.eqb n 0)
  | Str s => negb (String.eqb s "")
  | Sym _ | Ref _ => true
  end.

Definition kind_of (s : state) (l : loc) : option kind :=
  okind <$> heap s !! l.

Definition is_function_kind (k : kind) : bool :=
  match k with KFunction _ => true | _ => false end.

(** [typeof v] *)
Definition typeof (s : state) (v : value) : string :=
  match v with
  | Undefined => "undefined"
  | Null => "object"
  | Bool _ => "boolean"
  | Num _ | NaN => "number"
  | BigInt _ => "bigint"
  | Str _ => "string"
  | Sym _ => "symbol"
  | Ref l => match kind_of s l with
             | Some (KFunction _) => "function"
             | _ => "object"
             end
  end.

(** [v instanceof Function]: false on primitives, true on function
    objects. *)
Definition instanceof_Function (s : state) (v : value) : bool :=
  match v with
  | Ref l => match kind_of s l with
             | Some k => is_function_kind k
             | None => false
             end
  | _ => false
  end.

(** [name in v] for an object [v]. *)
Definition has_property (s : state) (v : value) (name : string) : bool :=
  match v with
  | Ref l => match heap s !! l with
             | Some o => bool_decide (is_Some (props o !! name))
             | None => false
             end
  | _ => false
  end.

Definition fresh_loc (s : state) : loc := fresh (dom (heap s)).

(** Allocation of a new object. *)
Definition alloc (o : object) : M value :=
  fun w => let l := fresh_loc (st w) in
           (Return (Ref l), World (set_heap (<[l := o]> (heap (st w))) (st w)) (log w)).

Definition data_prop (v : value) : prop := Prop_ v true true.

(** [throw new TypeError(msg)] *)
Definition throw_TypeError {A} (msg : string) : M A :=
  let* e := alloc (new_object KTypeError {["message" := data_prop (Str msg)]}) in
  throw e.

(** The value of [v.name] where [v] is not null/undefined.  On an object
    it is the property's value, or [undefined] when there is none (data
    properties only: no accessor runs); the primitive wrappers have no
    member of the names read in this library. *)
Definition read_prop (s : state) (v : value) (name : string) : value :=
  match v with
  | Ref l => match heap s !! l with
             | Some o => match props o !! name with
                         | Some p => pval p
                         | None => Undefined
                         end
             | None => Undefined
             end
  | _ => Undefined
  end.

(** Reading [v.name]: on [null] and [undefined] the read throws. *)
Definition get_prop (v : value) (name : string) : M value :=
  match v with
  | Undefined | Null => throw_TypeError ("Cannot read property '" ++ name ++ "'")
  | _ => let* s := get_state in ret (read_prop s v name)
  end.

Definition write_object (name : string) (x : value) (o : object) : object :=
  Obj (okind o)
      (<[name := match props o !! name with
                 | Some p => Prop_ x (writable p) (configurable p)
                 | None => data_prop x
                 end]> (props o))
      (extensible o).

Definition write_prop (l : loc) (name : string) (x : value) (s : state) : state :=
  set_heap (alter (write_object name x) l (heap s)) s.

(** Strict-mode assignment [v.name = x]: on an object, a non-writable
    property rejects the write with a [TypeError], and so does a missing
    property when the object is not extensible; otherwise the property is
    written or created.  On a primitive the assignment throws as well. *)
Definition set_prop (v : value) (name : string) (x : value) : M unit :=
  match v with
  | Undefined | Null => throw_TypeError ("Cannot set property '" ++ name ++ "'")
  | Ref l =>
      let* s := get_state in
      match heap s !! l with
      | Some o =>
          match props o !! name with
          | Some p => if writable p then modify (write_prop l name x)
                      else throw_TypeError ("Cannot assign to read only property '" ++ name ++ "'")
          | None => if extensible o then modify (write_prop l name x)
                    else throw_TypeError ("Cannot add property '" ++ name ++ "', object is not extensible")
          end
      | None => ret tt
      end
  | _ => throw_TypeError ("Cannot create property '" ++ name ++ "'")
  end.

(** [v] is a [TypeError] object with message [msg]. *)
Definition is_TypeError (s : state) (v : value) (msg : string) : bool :=
  match v with
  | Ref l => match heap s !! l with
             | Some o => match okind o with
                         | KTypeError =>
                             bool_decide ((pval <$> props o !! "message") = Some (Str msg))
                         | _ => false
                         end
             | None => false
             end
  | _ => false
  end.

(** [console.error(v)] *)
Definition console_error (v : value) : M unit :=
  modify (fun s => State (heap s) (console s ++ [v]) (suppressErrors s) (noLocking s)).

End JS.

Import JS.
Local Open Scope js_scope.

(* ===================================================================== *)
(** ** What the library takes from outside                                *)
(* ===================================================================== *)

(** The collaborators of the two files: user functions (event handlers),
    the driver and the modules that [index.js] only passes along. *)
Class Env := {
  (** body of the user function [n], given receiver and arguments *)
  user_fn : nat -> value -> list value -> state -> completion value * state;
  (** [new Database(cn, options)] *)
  new_Database : value -> value -> state -> completion value * state;
  (** [$npm.pg.end()] *)
  pg_end : state -> completion value * state;
  (** [pgCS.parse(str)] of pg-connection-string *)
  pgCS_parse : string -> state -> value * state;
  (** [$npm.promise(lib)] followed by [require('./database')($npm.promise.p)] *)
  promise_init : value -> state -> completion unit * state;
  (** the driver executing a statement and answering with a result object *)
  driver_query : value -> state -> completion value * state;
  (** the modules gathered in [rootNameSpace] *)
  npm_pg : value;
  npm_minify : value;
  npm_adapter : value;
  npm_result : value;
  npm_formatting_as : value;
  npm_queryFile : value;
  npm_QueryResultError : value;
  npm_mode : value
}.

(* ===================================================================== *)
(** ** lib/utils.js                                                       *)
(* ===================================================================== *)

Module Utils.

(** Modelled from the spec: [utils.isNull] ([lib/utils.js] is not among the
    sources), the check for null/undefined. *)
Definition isNull (v : value) : bool :=
  match v with
  | Undefined | Null => true
  | _ => false
  end.

(** Modelled from the spec: [new utils.InternalError(err)] ([lib/utils.js]
    is not among the sources), the wrapped internal error: a new object that
    contains the value it wraps. *)
Definition new_InternalError (err : value) : M value :=
  alloc (new_object KInternalError {["error" := data_prop err]}).

(** The wrapped value of an internal error. *)
Definition wraps (s : state) (e v : value) : Prop :=
  exists l o, e = Ref l /\ heap s !! l = Some o /\
              okind o = KInternalError /\ (pval <$> props o !! "error") = Some v.

Definition lock_prop (p : prop) : prop := Prop_ (pval p) false false.

Definition lock_object (o : object) : object :=
  Obj (okind o) (lock_prop <$> props o) false.

(** [l] has a property whose value is the object at [l']. *)
Definition points_to (h : gmap loc object) (l l' : loc) : Prop :=
  exists o, h !! l = Some o /\ map_Exists (fun _ p => pval p = Ref l') (props o).

#[global] Instance points_to_dec h l l' : Decision (points_to h l l').
Proof.
  unfold points_to. destruct (h !! l) as [o|] eqn:E.
  - destruct (decide (map_Exists (fun _ p => pval p = Ref l') (props o))) as [Y|N].
    + left. eauto.
    + right. intros (o' & [= <-] & H). auto.
  - right. intros (o' & [=] & _).
Defined.

(** One more level of nested property objects. *)
Definition nested_step (h : gmap loc object) (X : gset loc) : gset loc :=
  X ∪ filter (fun l' => set_Exists (fun l => points_to h l l') X) (dom h).

Fixpoint nested_iter (h : gmap loc object) (n : nat) (X : gset loc) : gset loc :=
  match n with
  | O => X
  | S n' => nested_iter h n' (nested_step h X)
  end.

(** The object at [l] and all its nested property objects. *)
Definition nested (h : gmap loc object) (l : loc) : gset loc :=
  nested_iter h (size h) {[l]}.

(** The objects a locking call is about. *)
Definition lock_targets (h : gmap loc object) (l : loc) (deep : bool) : gset loc :=
  if deep then nested h l else {[l]}.

Definition lock_set (X : gset loc) (h : gmap loc object) : gmap loc object :=
  map_imap (fun l o => Some (if decide (l ∈ X) then lock_object o else o)) h.

(** Modelled from the spec: [utils.lock(target, deep?)] ([lib/utils.js] is
    not among the sources).  It makes the existing properties of [target]
    non-writable and non-configurable and closes [target] to new members,
    and with [deep] it does so for the nested property objects as well;
    while the process-wide no-locking flag is set, a locking call does
    nothing. *)
Definition lock (target : value) (deep : bool) : M unit :=
  let* s := get_state in
  if noLocking s then ret tt
  else match target with
       | Ref l => modify (fun s => set_heap
                    (lock_set (lock_targets (heap s) l deep) (heap s)) s)
       | _ => ret tt
       end.

Fixpoint assign_all (target : value) (ps : list (string * prop)) : M unit :=
  match ps with
  | [] => ret tt
  | (name, p) :: rest =>
      let* _ := set_prop target name (pval p) in assign_all target rest
  end.

(** Modelled from the spec: [utils.addProperties(target, source)]
    ([lib/utils.js] is not among the sources): every property of [source]
    is assigned to [target] under the same name. *)
Definition addProperties (target source : value) : M unit :=
  let* s := get_state in
  match source with
  | Ref l => match heap s !! l with
             | Some o => assign_all target (map_to_list (props o))
             | None => ret tt
             end
  | _ => ret tt
  end.

End Utils.

(* ===================================================================== *)
(** ** lib/index.js                                                       *)
(* ===================================================================== *)

Module Index.
Section WithEnv.
Context {EV : Env}.

(** [v1 === v2] on the values of this model: [NaN] equals nothing. *)
Definition strict_eq (v1 v2 : value) : bool :=
  match v1 with
  | NaN => false
  | _ => bool_decide (v1 = v2)
  end.

Definition msg_invalid_options : string := "Invalid initialization options.".
Definition msg_invalid_init : string :=
  "Invalid library initialization: must initialize the library before creating a database object.".
Definition msg_invalid_cn : string := "Invalid connection details.".

(** The closure [inst] created by [$main(options)]:
    [function (cn) { ... new Database(cn, options) ... }]. *)
Definition inst (options : value) (cn : value) : M value :=
  let* s := get_state in
  let t := typeof s cn in
  if truthy cn && (String.eqb t "string" || String.eqb t "object") then
    lift (new_Database cn options)
  else
    throw_TypeError msg_invalid_cn.

(** The validation that opens [$main]: the value of [invalidInit] when
    control reaches [if (invalidInit)], or the [TypeError] thrown before. *)
Definition check_options (options : value) : M value :=
  if negb (Utils.isNull options) then
    let* s := get_state in
    let* invalidInit :=
      (if String.eqb (typeof s options) "string" then
         match options with
         | Str o =>
             let* cn := lift (fun s => let '(v, s') := pgCS_parse o s in (Return v, s')) in
             (* cn && cn.database !== options *)
             if truthy cn then
               let* d := get_prop cn "database" in
               ret (Bool (negb (strict_eq d options)))
             else ret cn
         | _ => ret Undefined
         end
       else ret Undefined) in
    let* s := get_state in
    if String.eqb (typeof s options) "object" then
      ret (Bool (has_property s options "host" || has_property s options "database"))
    else
      if negb (truthy invalidInit) then throw_TypeError msg_invalid_options
      else ret invalidInit
  else ret Undefined.

(** [$main(options)]; [rootNameSpace] is the module-level object. *)
Definition main (rootNameSpace : value) (options : value) : M value :=
  let* invalidInit := check_options options in
  if truthy invalidInit then throw_TypeError msg_invalid_init
  else
    let* s := get_state in
    let* _ := lift (promise_init
                      (if truthy options then read_prop s options "promiseLib" else Null)) in
    let* inst := alloc (new_object (KFunction (Inst options)) ∅) in
    let* _ := Utils.addProperties inst rootNameSpace in
    let* _ := Utils.lock inst false in
    ret inst.

(** What loading the module leaves behind: the exported function [$main]
    and the object [rootNameSpace]. *)
Record exports := Exports { export_main : value; export_rootNameSpace : value }.

Definition load : M exports :=
  let* end_ := alloc (new_object (KFunction NsEnd) ∅) in
  let* rootNameSpace := alloc (new_object KObject
    (list_to_map
       [("end", data_prop end_);
        ("as", data_prop npm_formatting_as);
        ("pg", data_prop npm_pg);
        ("minify", data_prop npm_minify);
        ("queryResult", data_prop npm_result);
        ("QueryResultError", data_prop npm_QueryResultError);
        ("PromiseAdapter", data_prop npm_adapter);
        ("QueryFile", data_prop npm_queryFile);
        ("txMode", data_prop npm_mode)])) in
  let* main_ := alloc (new_object (KFunction (MainFn rootNameSpace)) ∅) in
  let rd name := (let* s := get_state in ret (read_prop s rootNameSpace name)) in
  let* as_ := rd "as" in
  let* _ := Utils.lock as_ true in
  let* txMode := rd "txMode" in
  let* _ := Utils.lock txMode true in
  let* PromiseAdapter := rd "PromiseAdapter" in
  let* _ := Utils.lock PromiseAdapter true in
  let* QueryFile := rd "QueryFile" in
  let* _ := Utils.lock QueryFile true in
  let* QueryResultError := rd "QueryResultError" in
  let* _ := Utils.lock QueryResultError true in
  let* queryResult := rd "queryResult" in
  let* _ := Utils.lock queryResult true in
  let* _ := Utils.addProperties main_ rootNameSpace in
  ret (Exports main_ rootNameSpace).

(** Calling a function body. *)
Definition apply_fn (f : fn) (this : value) (args : list value) : M value :=
  match f with
  | User n => lift (user_fn n this args)
  | Inst options => inst options (nth 0 args Undefined)
  | MainFn rootNameSpace => main rootNameSpace (nth 0 args Undefined)
  | NsEnd => let* _ := lift pg_end in ret Undefined
  end.

(** The same on the store alone: function bodies leave the observation log
    to their callers. *)
Definition run_fn (f : fn) (this : value) (args : list value) (s : state)
  : completion value * state :=
  let '(c, w) := apply_fn f this args (World s []) in (c, st w).

(** The call [f.call(this, ...args)] of a value; the observation log
    records the callee, the receiver, the arguments and the store the
    callee starts from. *)
Definition call_value (f : value) (this : value) (args : list value) : M value :=
  let* s := get_state in
  match f with
  | Ref l => match kind_of s l with
             | Some (KFunction body) =>
                 let* _ := emit (Called body this args s) in
                 apply_fn body this args
             | _ => throw_TypeError "is not a function"
             end
  | _ => throw_TypeError "is not a function"
  end.

End WithEnv.
End Index.

(* ===================================================================== *)
(** ** lib/events.js                                                      *)
(* ===================================================================== *)

Module Events.
Section WithEnv.
Context {EV : Env}.

(** [unexpected(event, err)], the diagnostic sink.  The observation log
    notes each invocation. *)
Definition unexpected (event : string) (err : value) : M value :=
  let* _ := emit (Sink event err) in
  let* s := get_state in
  if negb (truthy (suppressErrors s)) then
    let* _ := console_error (Str ("Unexpected error in '" ++ event ++ "' event handler.")) in
    if negb (Utils.isNull err) then
      (* err.stack || err.message || err *)
      let* stack := get_prop err "stack" in
      let* detail :=
        (if truthy stack then ret stack
         else let* message := get_prop err "message" in
              if truthy message then ret message else ret err) in
      let* _ := console_error detail in
      ret Undefined
    else ret Undefined
  else ret Undefined.

(** The test [options && options.<name> instanceof Function]. *)
Definition handles (options : value) (name : string) : M bool :=
  if truthy options then
    let* h := get_prop options name in
    let* s := get_state in
    ret (instanceof_Function s h)
  else ret false.

(** The method call [options.<name>(args)]: the receiver is [options]. *)
Definition call_method (options : value) (name : string) (args : list value) : M value :=
  let* h := get_prop options name in
  Index.call_value h options args.

Definition connect (options client : value) : M value :=
  let* b := handles options "connect" in
  if b then
    let* _ := try_catch (call_method options "connect" [client])
                        (fun err => unexpected "connect" err) in
    ret Undefined
  else ret Undefined.

Definition disconnect (options client : value) : M value :=
  let* b := handles options "disconnect" in
  if b then
    let* _ := try_catch (call_method options "disconnect" [client])
                        (fun err => unexpected "disconnect" err) in
    ret Undefined
  else ret Undefined.

Definition query (options context : value) : M value :=
  let* b := handles options "query" in
  if b then
    try_catch (let* _ := call_method options "query" [context] in ret Undefined)
              (fun err => Utils.new_InternalError err)
  else ret Undefined.

Definition receive (options data result context : value) : M value :=
  let* b := handles options "receive" in
  if b then
    try_catch (let* _ := call_method options "receive" [data; result; context] in
               ret Undefined)
              (fun err => Utils.new_InternalError err)
  else ret Undefined.

Definition task (options context : value) : M value :=
  let* b := handles options "task" in
  if b then
    let* _ := try_catch (call_method options "task" [context])
                        (fun err => unexpected "task" err) in
    ret Undefined
  else ret Undefined.

Definition transact (options context : value) : M value :=
  let* b := handles options "transact" in
  if b then
    let* _ := try_catch (call_method options "transact" [context])
                        (fun err => unexpected "transact" err) in
    ret Undefined
  else ret Undefined.

(** In the source the [err] of the catch clause shadows the parameter
    [err]: the sink is given the value thrown by the handler. *)
Definition error (options err context : value) : M value :=
  let* b := handles options "error" in
  if b then
    let* _ := try_catch (call_method options "error" [err; context])
                        (fun err => unexpected "error" err) in
    ret Undefined
  else ret Undefined.

(** [options.extend.call(obj, obj)]: the receiver is [obj]. *)
Definition extend (options obj : value) : M value :=
  let* b := handles options "extend" in
  if b then
    let* _ := try_catch (let* h := get_prop options "extend" in
                         Index.call_value h obj [obj])
                        (fun err => unexpected "extend" err) in
    ret Undefined
  else ret Undefined.

(** *** Vocabulary to speak of the eight dispatchers at once

    What follows is not in [events.js]: the events with their payloads, the
    dispatcher of each, and what a handler is given. *)

Inductive firing :=
| Connect (client : value)
| Disconnect (client : value)
| Query (context : value)
| Receive (data result context : value)
| Task (context : value)
| Transact (context : value)
| Error (err context : value)
| Extend (obj : value).

Definition name_of (e : firing) : string :=
  match e with
  | Connect _ => "connect"
  | Disconnect _ => "disconnect"
  | Query _ => "query"
  | Receive _ _ _ => "receive"
  | Task _ => "task"
  | Transact _ => "transact"
  | Error _ _ => "error"
  | Extend _ => "extend"
  end.

Definition dispatch (options : value) (e : firing) : M value :=
  match e with
  | Connect client => connect options client
  | Disconnect client => disconnect options client
  | Query context => query options context
  | Receive data result context => receive options data result context
  | Task context => task options context
  | Transact context => transact options context
  | Error err context => error options err context
  | Extend obj => extend options obj
  end.

Definition fire_and_forget (e : firing) : bool :=
  match e with
  | Query _ | Receive _ _ _ => false
  | _ => true
  end.

(** Receiver and arguments a handler is given for a firing. *)
Definition receiver_of (options : value) (e : firing) : value :=
  match e with
  | Extend obj => obj
  | _ => options
  end.

Definition arguments_of (e : firing) : list value :=
  match e with
  | Connect client | Disconnect client => [client]
  | Query context | Task context | Transact context => [context]
  | Receive data result context => [data; result; context]
  | Error err context => [err; context]
  | Extend obj => [obj]
  end.

(** The handler configured for an event, when the dispatcher's test
    [options && options.<name> instanceof Function] passes. *)
Definition handler_of (s : state) (options : value) (name : string) : option fn :=
  if truthy options then
    match read_prop s options name with
    | Ref l => match kind_of s l with
               | Some (KFunction body) => Some body
               | _ => None
               end
    | _ => None
    end
  else None.

(** What the sink writes with [console.error] for [err] in store [s]. *)
Definition header (event : string) : value :=
  Str ("Unexpected error in '" ++ event ++ "' event handler.").

Definition detail (s : state) (err : value) : value :=
  if truthy (read_prop s err "stack") then read_prop s err "stack"
  else if truthy (read_prop s err "message") then read_prop s err "message"
  else err.

Definition diagnostics (s : state) (event : string) (err : value) : list value :=
  if truthy (suppressErrors s) then []
  else header event :: (if Utils.isNull err then [] else [detail s err]).

Definition write_console (vs : list value) (s : state) : state :=
  State (heap s) (console s ++ vs) (suppressErrors s) (noLocking s).

End WithEnv.
End Events.

(* ===================================================================== *)
(** ** The operations that fire the events                                *)
(* ===================================================================== *)

(** How a pending operation settles. *)
Inductive settled :=
| Resolved (v : value)
| Rejected (reason : value).

Module Query.
Section WithEnv.
Context {EV : Env}.

(** Modelled from the spec: the query operation ([lib/query.js] is not among
    the sources).  [query] fires strictly before the driver executes the
    statement, [receive] fires once rows have arrived and before they reach
    the caller; the operation rejects with the error a dispatch returns, if
    it returns one, and otherwise goes on. *)
Definition deliver (options context result : value) : M settled :=
  let* s := get_state in
  let data := read_prop s result "rows" in
  match read_prop s data "length" with
  | Num n =>
      if (0 <? n)%Z then
        let* veto := Events.receive options data result context in
        match veto with
        | Undefined => ret (Resolved data)
        | _ => ret (Rejected veto)
        end
      else ret (Resolved data)
  | _ => ret (Resolved data)
  end.

Definition execute (options context qry : value) : M settled :=
  let* veto := Events.query options context in
  match veto with
  | Undefined =>
      let* _ := emit (Driver qry) in
      try_catch
        (let* result := lift (driver_query qry) in
         deliver options context result)
        (fun err => ret (Rejected err))
  | _ => ret (Rejected veto)
  end.

End WithEnv.
End Query.

Module Task.
Section WithEnv.
Context {EV : Env}.

(** Modelled from the spec: creation of a task/transaction context
    ([lib/task.js] is not among the sources): [isTX], [start] and [tag] are
    set, [finish], [success] and [result] are absent. *)
Definition create (isTX : bool) (start : Z) (tag : value) : M value :=
  let* d := alloc (new_object (KDate start) ∅) in
  alloc (new_object KObject (list_to_map
    [("isTX", data_prop (Bool isTX)); ("start", data_prop d); ("tag", data_prop tag)])).

Definition success_of (outcome : settled) : bool :=
  match outcome with Resolved _ => true | Rejected _ => false end.

Definition result_of (outcome : settled) : value :=
  match outcome with Resolved v => v | Rejected r => r end.

Definition settle_object (finish : value) (outcome : settled) (o : object) : object :=
  Obj (okind o)
      (<["finish" := data_prop finish]>
         (<["success" := data_prop (Bool (success_of outcome))]>
            (<["result" := data_prop (result_of outcome)]> (props o))))
      (extensible o).

(** Modelled from the spec: the completion transition of a context
    ([lib/task.js] is not among the sources): [finish], [success] and
    [result] are assigned together. *)
Definition complete (ctx : value) (now : Z) (outcome : settled) : M unit :=
  let* d := alloc (new_object (KDate now) ∅) in
  match ctx with
  | Ref l => modify (fun s => set_heap (alter (settle_object d outcome) l (heap s)) s)
  | _ => ret tt
  end.

(** The event fired for a task or for a transaction. *)
Definition firing_of (isTX : bool) (e : value) : Events.firing :=
  if isTX then Events.Transact e else Events.Task e.

(** The event context of a notification: the client and the
    task/transaction context. *)
Definition event_context (client ctx : value) : object :=
  new_object KObject (list_to_map [("client", data_prop client); ("ctx", data_prop ctx)]).

(** The notification of a task or of a transaction. *)
Definition notify (isTX : bool) (options client ctx : value) : M value :=
  let* e := alloc (event_context client ctx) in
  Events.dispatch options (firing_of isTX e).

(** Modelled from the spec: the life of a task or transaction
    ([lib/task.js] is not among the sources): created, announced (start),
    run until the operation [body] settles, completed, announced
    (finish). *)
Definition run (isTX : bool) (options client tag : value) (start finish : Z)
    (body : state -> settled * state) : M settled :=
  let* ctx := create isTX start tag in
  let* _ := notify isTX options client ctx in
  let* outcome := lift (fun s => let '(r, s') := body s in (Return r, s')) in
  let* _ := complete ctx finish outcome in
  let* _ := notify isTX options client ctx in
  ret outcome.

(** The three completion fields of a context as read from the store:
    present or absent, and with which value. *)
Definition field (s : state) (ctx : value) (name : string) : option value :=
  match ctx with
  | Ref l => match heap s !! l with
             | Some o => pval <$> props o !! name
             | None => None
             end
  | _ => None
  end.

Definition pending (s : state) (ctx : value) : Prop :=
  field s ctx "finish" = None /\ field s ctx "success" = None /\ field s ctx "result" = None.

Definition finished (s : state) (ctx : value) (outcome : settled) : Prop :=
  (exists d t, field s ctx "finish" = Some (Ref d) /\ kind_of s d = Some (KDate t)) /\
  field s ctx "success" = Some (Bool (success_of outcome)) /\
  field s ctx "result" = Some (result_of outcome).

Definition is_Some_b {A} (o : option A) : bool :=
  match o with Some _ => true | None => false end.

(** The invariant of the data model. *)
Definition consistent (s : state) (ctx : value) : Prop :=
  field s ctx "finish" = None <->
  (field s ctx "success" = None /\ field s ctx "result" = None).

End WithEnv.
End Task.

(* ===================================================================== *)
(** ** A small configuration to run the definitions on                    *)
(* ===================================================================== *)

Module Demo.

(** User function 0 throws the string "boom"; user function 1 returns
    [undefined]; every other one marks its first argument, when that is an
    object, with [seen = true] and returns [undefined]. *)
Definition user (n : nat) (this : value) (args : list value) (s : state)
  : completion value * state :=
  match n with
  | O => (Throw (Str "boom"), s)
  | S O => (Return Undefined, s)
  | _ => match args with
         | Ref l :: _ => (Return Undefined, write_prop l "seen" (Bool true) s)
         | _ => (Return Undefined, s)
         end
  end.

Definition thrower : loc := 1%positive.
Definition quiet : loc := 2%positive.
Definition marker : loc := 3%positive.
Definition throwing_options : loc := 4%positive.
Definition quiet_options : loc := 5%positive.
Definition marking_options : loc := 6%positive.
Definition client : loc := 7%positive.
Definition row : loc := 8%positive.
Definition rows : loc := 9%positive.
Definition result : loc := 10%positive.
Definition context : loc := 11%positive.
Definition unlocking_options : loc := 12%positive.
Definition connection_options : loc := 13%positive.
Definition module_as : loc := 14%positive.
Definition module_other : loc := 15%positive.

Definition all_handlers (h : loc) : gmap string prop :=
  list_to_map (map (fun name => (name, data_prop (Ref h)))
    ["connect"; "disconnect"; "query"; "receive"; "task"; "transact"; "error"; "extend"]).

Definition store : gmap loc object := Eval vm_compute in
  list_to_map
    [(thrower, new_object (KFunction (User 0)) ∅);
     (quiet, new_object (KFunction (User 1)) ∅);
     (marker, new_object (KFunction (User 2)) ∅);
     (throwing_options, new_object KObject (all_handlers thrower));
     (quiet_options, new_object KObject (all_handlers quiet));
     (marking_options, new_object KObject (all_handlers marker));
     (client, new_object KObject ∅);
     (row, new_object KObject {["id" := data_prop (Num 1)]});
     (rows, new_object KArray
              (list_to_map [("0", data_prop (Ref row)); ("length", data_prop (Num 1))]));
     (result, new_object KObject {["rows" := data_prop (Ref rows)]});
     (context, new_object KObject {["client" := data_prop (Ref client)]});
     (unlocking_options, new_object KObject {["noLocking" := data_prop (Bool true)]});
     (connection_options, new_object KObject {["host" := data_prop (Str "localhost")]});
     (module_as, new_object KObject {["text" := data_prop (Ref quiet)]});
     (module_other, new_object KObject ∅)].

(** The process at start: nothing written, errors not suppressed, locking
    in force. *)
Definition start : state := State store [] Undefined false.

Definition start_world : world := World start [].

Definition throwing : value := Ref throwing_options.
Definition silent : value := Ref quiet_options.
Definition ctx : value := Ref context.

Definition env : Env := {|
  user_fn := user;
  new_Database := fun cn options s => (Return (Ref client), s);
  pg_end := fun s => (Return Undefined, s);
  pgCS_parse := fun str s => (Null, s);
  promise_init := fun lib s => (Return tt, s);
  driver_query := fun qry s => (Return (Ref result), s);
  npm_pg := Ref module_other;
  npm_minify := Ref module_other;
  npm_adapter := Ref module_other;
  npm_result := Ref module_other;
  npm_formatting_as := Ref module_as;
  npm_queryFile := Ref module_other;
  npm_QueryResultError := Ref module_other;
  npm_mode := Ref module_other
|}.

(** The same collaborators, with a connection-string parser that answers
    with a connection object of host "localhost" and no database. *)
Definition env_parsing : Env := {|
  user_fn := user;
  new_Database := fun cn options s => (Return (Ref client), s);
  pg_end := fun s => (Return Undefined, s);
  pgCS_parse := fun str s => (Ref connection_options, s);
  promise_init := fun lib s => (Return tt, s);
  driver_query := fun qry s => (Return (Ref result), s);
  npm_pg := Ref module_other;
  npm_minify := Ref module_other;
  npm_adapter := Ref module_other;
  npm_result := Ref module_other;
  npm_formatting_as := Ref module_as;
  npm_queryFile := Ref module_other;
  npm_QueryResultError := Ref module_other;
  npm_mode := Ref module_other
|}.

(** The same collaborators, with a promise set-up that fails. *)
Definition env_failing : Env := {|
  user_fn := user;
  new_Database := fun cn options s => (Return (Ref client), s);
  pg_end := fun s => (Return Undefined, s);
  pgCS_parse := fun str s => (Null, s);
  promise_init := fun lib s => (Throw (Str "Invalid promise library override."), s);
  driver_query := fun qry s => (Return (Ref result), s);
  npm_pg := Ref module_other;
  npm_minify := Ref module_other;
  npm_adapter := Ref module_other;
  npm_result := Ref module_other;
  npm_formatting_as := Ref module_as;
  npm_queryFile := Ref module_other;
  npm_QueryResultError := Ref module_other;
  npm_mode := Ref module_other
|}.

(** The same process with the no-locking flag in effect. *)
Definition unlocked_world : world := World (State store [] Undefined true) [].

(** Loading [index.js], initialising the library with [{noLocking: true}]
    and then assigning to the member [end] of the root object. *)
Definition overwrite_end : M unit :=
  let* m := Index.load (EV := env) in
  let* pgp := Index.main (EV := env) (Index.export_rootNameSpace m)
                (Ref unlocking_options) in
  set_prop pgp "end" Null.

(** The same, assigning to the member [text] of the namespace [as]. *)
Definition overwrite_as_text : M unit :=
  let* m := Index.load (EV := env) in
  let* pgp := Index.main (EV := env) (Index.export_rootNameSpace m)
                (Ref unlocking_options) in
  let* s := get_state in
  set_prop (read_prop s pgp "as") "text" Null.

End Demo.

(* ===================================================================== *)
(** ** Notions used to state and prove the properties                     *)
(* ===================================================================== *)

(** A computation is tame when it leaves the observation log alone, does
    not depend on it, and unallocates nothing. *)
Definition tame {A} (m : M A) : Prop :=
  forall s lg,
    m (World s lg) = ((m (World s [])).1, World (st (m (World s [])).2) lg) /\
    dom (heap s) ⊆ dom (heap (st (m (World s [])).2)).

(** A computation keeps kinds when every object of the store is, after it,
    still there and of the kind it had. *)
Definition keeps_kind {A} (m : M A) : Prop :=
  forall w l k, kind_of (st w) l = Some k -> kind_of (st (m w).2) l = Some k.

(** The initialisation options that [$main] lets through: null/undefined,
    or an object (not a function) with neither [host] nor [database]. *)
Definition acceptable_options (s : state) (options : value) : bool :=
  Utils.isNull options ||
  (String.eqb (typeof s options) "object" &&
   negb (has_property s options "host") && negb (has_property s options "database")).

(** Events of the observation log that are calls of the diagnostic sink. *)
Definition is_sink (ev : event) : bool :=
  match ev with Sink _ _ => true | _ => false end.

(** Events of the observation log that are calls of a function. *)
Definition is_called (ev : event) : bool :=
  match ev with Called _ _ _ _ => true | _ => false end.

(** The two failure policies, as functions of the world. *)
Section Policies.
Context {EV : Env}.

(** What a fire-and-forget dispatch does, in full. *)
Definition isolated (options : value) (e : Events.firing) (w : world) : completion value * world :=
  match Events.handler_of (st w) options (Events.name_of e) with
  | None => (Return Undefined, w)
  | Some f =>
      let called := (log w ++ [Called f (Events.receiver_of options e)
                                      (Events.arguments_of e) (st w)])%list in
      match Index.run_fn f (Events.receiver_of options e) (Events.arguments_of e) (st w) with
      | (Return _, s1) => (Return Undefined, World s1 called)
      | (Throw v, s1) =>
          (Return Undefined,
           World (Events.write_console (Events.diagnostics s1 (Events.name_of e) v) s1)
                 (called ++ [Sink (Events.name_of e) v]))
      end
  end.

(** What a veto-capable dispatch does, in full. *)
Definition vetoing (options : value) (e : Events.firing) (w : world) : completion value * world :=
  match Events.handler_of (st w) options (Events.name_of e) with
  | None => (Return Undefined, w)
  | Some f =>
      let called := (log w ++ [Called f options (Events.arguments_of e) (st w)])%list in
      match Index.run_fn f options (Events.arguments_of e) (st w) with
      | (Return _, s1) => (Return Undefined, World s1 called)
      | (Throw v, s1) => Utils.new_InternalError v (World s1 called)
      end
  end.

End Policies.

(* ===================================================================== *)
(** ** Function bodies are well behaved                                   *)
(* ===================================================================== *)

Section Tame.
Context {EV : Env}.

Lemma tame_ret {A} (a : A) : tame (ret a).
Proof. intros s lg. split; [reflexivity | set_solver]. Qed.

Lemma tame_throw {A} (v : value) : tame (@throw A v).
Proof. intros s lg. split; [reflexivity | set_solver]. Qed.

Lemma tame_get_state : tame get_state.
Proof. intros s lg. split; [reflexivity | set_solver]. Qed.

Lemma tame_bind {A B} (m : M A) (k : A -> M B) :
  tame m -> (forall a, tame (k a)) -> tame (bind m k).
Proof.
  intros Hm Hk s lg. unfold bind.
  destruct (Hm s lg) as [E1 D1]. rewrite E1.
  destruct (m (World s [])) as [[a|v] [s1 l1]] eqn:E; simpl in *.
  - destruct (Hm s []) as [E2 _]. rewrite E in E2. simpl in E2.
    injection E2 as E2. subst l1.
    destruct (Hk a s1 lg) as [E3 D3]. rewrite E3. split; [reflexivity|].
    set_solver.
  - split; [reflexivity | exact D1].
Qed.

Lemma tame_try_catch {A} (m : M A) (k : value -> M A) :
  tame m -> (forall v, tame (k v)) -> tame (try_catch m k).
Proof.
  intros Hm Hk s lg. unfold try_catch.
  destruct (Hm s lg) as [E1 D1]. rewrite E1.
  destruct (m (World s [])) as [[a|v] [s1 l1]] eqn:E; simpl in *.
  - split; [reflexivity | exact D1].
  - destruct (Hm s []) as [E2 _]. rewrite E in E2. simpl in E2.
    injection E2 as E2. subst l1.
    destruct (Hk v s1 lg) as [E3 D3]. rewrite E3. split; [reflexivity|].
    set_solver.
Qed.

Lemma tame_lift {A} (f : state -> completion A * state) : tame (lift f).
Proof.
  intros s lg. unfold lift. simpl. destruct (f s) as [c s'] eqn:E. simpl.
  split; [reflexivity|]. rewrite dom_union_L. set_solver.
Qed.

Lemma tame_modify (f : state -> state) :
  (forall s, dom (heap s) ⊆ dom (heap (f s))) -> tame (modify f).
Proof. intros Hf s lg. split; [reflexivity | apply Hf]. Qed.

Lemma tame_alloc (o : object) : tame (alloc o).
Proof.
  intros s lg. split; [reflexivity|]. simpl. rewrite dom_insert_L. set_solver.
Qed.

Lemma tame_throw_TypeError {A} (msg : string) : tame (@throw_TypeError A msg).
Proof.
  unfold throw_TypeError. apply tame_bind; [apply tame_alloc|].
  intros; apply tame_throw.
Qed.

Lemma tame_get_prop v name : tame (get_prop v name).
Proof.
  destruct v; simpl; try apply tame_throw_TypeError;
    (apply tame_bind; [apply tame_get_state | intros; apply tame_ret]).
Qed.

Lemma write_prop_dom l name x s : dom (heap (write_prop l name x s)) = dom (heap s).
Proof. unfold write_prop. simpl. apply dom_alter_L. Qed.

Lemma tame_set_prop v name x : tame (set_prop v name x).
Proof.
  destruct v; simpl; try apply tame_throw_TypeError; try apply tame_ret.
  apply tame_bind; [apply tame_get_state|]. intros s.
  destruct (heap s !! l) as [o|]; [|apply tame_ret].
  assert (tame (modify (write_prop l name x))) as Hw.
  { apply tame_modify. intros s'. by rewrite write_prop_dom. }
  destruct (props o !! name) as [p|].
  - destruct (writable p); [exact Hw | apply tame_throw_TypeError].
  - destruct (extensible o); [exact Hw | apply tame_throw_TypeError].
Qed.

Lemma lock_set_dom X h : dom (Utils.lock_set X h) = dom h.
Proof.
  unfold Utils.lock_set. apply set_eq. intros l.
  rewrite !elem_of_dom, map_lookup_imap.
  destruct (h !! l) as [o|]; simpl; [|by split; intros [? ?]].
  split; intros _; eauto.
Qed.

Lemma tame_lock target deep : tame (Utils.lock target deep).
Proof.
  unfold Utils.lock. apply tame_bind; [apply tame_get_state|]. intros s.
  destruct (noLocking s); [apply tame_ret|].
  destruct target; try apply tame_ret.
  apply tame_modify. intros s'. simpl. by rewrite lock_set_dom.
Qed.

Lemma tame_assign_all target ps : tame (Utils.assign_all target ps).
Proof.
  induction ps as [|[name p] ps IH]; simpl; [apply tame_ret|].
  apply tame_bind; [apply tame_set_prop | intros; exact IH].
Qed.

Lemma tame_addProperties target source : tame (Utils.addProperties target source).
Proof.
  unfold Utils.addProperties. apply tame_bind; [apply tame_get_state|]. intros s.
  destruct source; try apply tame_ret.
  destruct (heap s !! l); [apply tame_assign_all | apply tame_ret].
Qed.

Lemma tame_inst options cn : tame (Index.inst options cn).
Proof.
  unfold Index.inst. apply tame_bind; [apply tame_get_state|]. intros s.
  destruct (_ && _); [apply tame_lift | apply tame_throw_TypeError].
Qed.

Lemma tame_check_options options : tame (Index.check_options options).
Proof.
  unfold Index.check_options.
  destruct (negb (Utils.isNull options)); [|apply tame_ret].
  apply tame_bind; [apply tame_get_state|]. intros s.
  apply tame_bind.
  - destruct (String.eqb _ _); [|apply tame_ret].
    destruct options; try apply tame_ret.
    apply tame_bind; [apply tame_lift|]. intros cn.
    destruct (truthy cn); [|apply tame_ret].
    apply tame_bind; [apply tame_get_prop | intros; apply tame_ret].
  - intros invalidInit. apply tame_bind; [apply tame_get_state|]. intros s'.
    destruct (String.eqb _ _); [apply tame_ret|].
    destruct (negb _); [apply tame_throw_TypeError | apply tame_ret].
Qed.

Lemma tame_main ns options : tame (Index.main ns options).
Proof.
  unfold Index.main. apply tame_bind; [apply tame_check_options|]. intros v.
  destruct (truthy v); [apply tame_throw_TypeError|].
  apply tame_bind; [apply tame_get_state|]. intros s.
  apply tame_bind; [apply tame_lift|]. intros _.
  apply tame_bind; [apply tame_alloc|]. intros i.
  apply tame_bind; [apply tame_addProperties|]. intros _.
  apply tame_bind; [apply tame_lock|]. intros _. apply tame_ret.
Qed.

Lemma tame_apply_fn f this args : tame (Index.apply_fn f this args).
Proof.
  destruct f; simpl.
  - apply tame_lift.
  - apply tame_inst.
  - apply tame_main.
  - apply tame_bind; [apply tame_lift | intros; apply tame_ret].
Qed.

(** A function body in a world: its answer on the store, the log kept. *)
Lemma apply_fn_run f this args w :
  Index.apply_fn f this args w =
  ((Index.run_fn f this args (st w)).1,
   World (Index.run_fn f this args (st w)).2 (log w)).
Proof.
  destruct w as [s lg]. unfold Index.run_fn.
  destruct (tame_apply_fn f this args s lg) as [E _]. rewrite E. simpl.
  by destruct (Index.apply_fn f this args (World s [])) as [c w'].
Qed.

Lemma run_fn_grows f this args s :
  dom (heap s) ⊆ dom (heap (Index.run_fn f this args s).2).
Proof.
  unfold Index.run_fn.
  destruct (tame_apply_fn f this args s []) as [_ D].
  by destruct (Index.apply_fn f this args (World s [])) as [c w'].
Qed.

End Tame.

(* ===================================================================== *)
(** ** The dispatchers, step by step                                      *)
(* ===================================================================== *)

Section Dispatch.
Context {EV : Env}.

Lemma get_prop_truthy options name w :
  truthy options = true ->
  get_prop options name w = (Return (read_prop (st w) options name), w).
Proof. destruct options; simpl; intros; try discriminate; reflexivity. Qed.

Lemma get_prop_not_null v name w :
  Utils.isNull v = false ->
  get_prop v name w = (Return (read_prop (st w) v name), w).
Proof. destruct v; simpl; intros; try discriminate; reflexivity. Qed.

Lemma handler_of_instanceof s options name :
  is_Some (Events.handler_of s options name) <->
  truthy options = true /\ instanceof_Function s (read_prop s options name) = true.
Proof.
  unfold Events.handler_of, instanceof_Function.
  destruct (truthy options);
    [|split; [intros [? ?]; discriminate | intros [? _]; discriminate]].
  destruct (read_prop s options name) as [| | | | | | | |l];
    try (split; [intros [? ?]; discriminate | intros [_ ?]; discriminate]).
  destruct (kind_of s l) as [k|]; simpl;
    [|split; [intros [? ?]; discriminate | intros [_ ?]; discriminate]].
  destruct k; simpl;
    try (split; [intros [? ?]; discriminate | intros [_ ?]; discriminate]).
  split; eauto.
Qed.

Lemma handles_spec options name w :
  Events.handles options name w =
  (Return (bool_decide (is_Some (Events.handler_of (st w) options name))), w).
Proof.
  unfold Events.handles. destruct (truthy options) eqn:T.
  - unfold bind. rewrite get_prop_truthy by done. simpl. unfold ret. f_equal. f_equal.
    symmetry. destruct (instanceof_Function _ _) eqn:I.
    + apply bool_decide_eq_true. rewrite handler_of_instanceof. done.
    + apply bool_decide_eq_false. rewrite handler_of_instanceof.
      intros [_ ?]. congruence.
  - unfold ret. f_equal. f_equal. symmetry. apply bool_decide_eq_false.
    rewrite handler_of_instanceof. intros [? _]. congruence.
Qed.

Lemma handler_of_Some s options name f :
  Events.handler_of s options name = Some f ->
  truthy options = true /\
  exists l, read_prop s options name = Ref l /\ kind_of s l = Some (KFunction f).
Proof.
  unfold Events.handler_of. destruct (truthy options); [|done].
  destruct (read_prop s options name) as [| | | | | | | |l]; try done.
  destruct (kind_of s l) as [[]|] eqn:K; try done.
  intros [= <-]. eauto.
Qed.

Lemma call_value_spec s h f this args w :
  st w = s ->
  (exists l, h = Ref l /\ kind_of s l = Some (KFunction f)) ->
  Index.call_value h this args w =
  ((Index.run_fn f this args s).1,
   World (Index.run_fn f this args s).2 (log w ++ [Called f this args s])).
Proof.
  intros <- (l & -> & K). unfold Index.call_value, bind, get_state. simpl.
  rewrite K. unfold emit. simpl. by rewrite apply_fn_run.
Qed.

Lemma call_method_spec options name f args w :
  Events.handler_of (st w) options name = Some f ->
  Events.call_method options name args w =
  ((Index.run_fn f options args (st w)).1,
   World (Index.run_fn f options args (st w)).2
         (log w ++ [Called f options args (st w)])).
Proof.
  intros Hh. apply handler_of_Some in Hh as (T & Hl).
  unfold Events.call_method, bind. rewrite get_prop_truthy by done.
  by apply call_value_spec.
Qed.

Lemma read_prop_heap s s' v name :
  heap s = heap s' -> read_prop s v name = read_prop s' v name.
Proof. intros E. destruct v; simpl; try done. by rewrite E. Qed.

(** The diagnostic sink never throws; it notes its invocation and writes
    the diagnostics. *)
Lemma unexpected_spec event err w :
  Events.unexpected event err w =
  (Return Undefined,
   World (Events.write_console (Events.diagnostics (st w) event err) (st w))
         (log w ++ [Sink event err])).
Proof.
  destruct w as [s lg]. unfold Events.unexpected, Events.diagnostics, bind, emit, get_state.
  simpl. destruct (truthy (suppressErrors s)) eqn:Q; simpl.
  - unfold ret, Events.write_console. rewrite app_nil_r. by destruct s.
  - unfold console_error, modify. simpl.
    destruct (Utils.isNull err) eqn:N; simpl.
    + reflexivity.
    + rewrite get_prop_not_null by done. simpl.
      unfold Events.detail.
      set (s1 := State (heap s) _ _ _).
      rewrite !(read_prop_heap s1 s) by done.
      destruct (truthy (read_prop s err "stack")); simpl.
      * unfold Events.write_console. simpl. by rewrite <- app_assoc.
      * rewrite get_prop_not_null by done. simpl.
        rewrite !(read_prop_heap s1 s) by done.
        destruct (truthy (read_prop s err "message")); simpl;
          unfold Events.write_console; simpl; by rewrite <- app_assoc.
Qed.

Lemma fire_and_forget_spec options e w :
  Events.fire_and_forget e = true ->
  Events.dispatch options e w = isolated options e w.
Proof.
  intros FF. unfold isolated.
  destruct e; try discriminate; simpl;
    unfold Events.connect, Events.disconnect, Events.task, Events.transact,
      Events.error, Events.extend; unfold bind at 1; rewrite handles_spec;
    match goal with
    | |- context [Events.handler_of ?s ?o ?n] =>
        destruct (Events.handler_of s o n) as [f|] eqn:Hh
    end; simpl; try reflexivity.
  all: unfold bind, try_catch.
  all: try (rewrite (call_method_spec _ _ f) by exact Hh).
  all: try (rewrite get_prop_truthy by (by apply handler_of_Some in Hh as [? ?]);
            rewrite (call_value_spec (st w) _ f);
            [| reflexivity | by apply handler_of_Some in Hh as [? ?]]).
  all: match goal with
       | |- context [Index.run_fn ?f ?t ?a ?s] =>
           destruct (Index.run_fn f t a s) as [[r|v] s1]
       end; simpl; try reflexivity.
  all: rewrite unexpected_spec; reflexivity.
Qed.

Lemma veto_spec options e w :
  Events.fire_and_forget e = false ->
  Events.dispatch options e w = vetoing options e w.
Proof.
  intros FF. unfold vetoing.
  destruct e; try discriminate; simpl;
    unfold Events.query, Events.receive; unfold bind at 1; rewrite handles_spec;
    match goal with
    | |- context [Events.handler_of ?s ?o ?n] =>
        destruct (Events.handler_of s o n) as [f|] eqn:Hh
    end; simpl; try reflexivity.
  all: unfold bind, try_catch; rewrite (call_method_spec _ _ f) by exact Hh.
  all: match goal with
       | |- context [Index.run_fn ?f ?t ?a ?s] =>
           destruct (Index.run_fn f t a s) as [[r|v] s1]
       end; simpl; reflexivity.
Qed.

End Dispatch.

(* ===================================================================== *)
(** ** Properties of the event dispatcher                                 *)
(* ===================================================================== *)

Section Allocation.

Lemma from_fst {A B} (p : A * B) (a : A) : p.1 = a -> p = (a, p.2).
Proof. intros <-. by destruct p. Qed.

Lemma fresh_loc_None s : heap s !! fresh_loc s = None.
Proof. apply not_elem_of_dom. unfold fresh_loc. apply is_fresh. Qed.

Lemma alloc_frame o w l :
  is_Some (heap (st w) !! l) ->
  heap (st (alloc o w).2) !! l = heap (st w) !! l.
Proof.
  intros [x Hx]. simpl. apply lookup_insert_ne. intros <-.
  rewrite fresh_loc_None in Hx. discriminate.
Qed.

End Allocation.

Section EventClaims.
Context {EV : Env}.

(** C7.  For each of the eight events: when the configuration is
    null/undefined, or the handler option of the event is absent or is not a
    function, the dispatch calls nothing, changes nothing (neither the
    store nor what was observed) and returns [undefined] -- for [query] and
    [receive] that is "no error". *)
Theorem dispatch_without_handler options e w :
  Utils.isNull options = true \/
  instanceof_Function (st w) (read_prop (st w) options (Events.name_of e)) = false ->
  Events.dispatch options e w = (Return Undefined, w).
Proof.
  intros Hno.
  assert (Events.handler_of (st w) options (Events.name_of e) = None) as Hnone.
  { destruct (Events.handler_of _ _ _) eqn:Hh; [|done].
    assert (is_Some (Events.handler_of (st w) options (Events.name_of e))) as Hs by eauto.
    apply handler_of_instanceof in Hs as [T I].
    destruct Hno as [N|N]; [|congruence]. by destruct options. }
  destruct (Events.fire_and_forget e) eqn:FF.
  - rewrite fire_and_forget_spec by done. unfold isolated. by rewrite Hnone.
  - rewrite veto_spec by done. unfold vetoing. by rewrite Hnone.
Qed.

(** C2.  For each fire-and-forget event (connect, disconnect, task,
    transact, error, extend): when the configured handler throws [v], the
    dispatch returns [undefined] normally, and the diagnostic sink is
    invoked exactly once, with the name of the event and [v]: the
    observations added are the handler call followed by that one sink
    call, and the store is the one the handler left plus what the sink
    wrote to the console. *)
Theorem fire_and_forget_isolates options e w f v s1 :
  Events.fire_and_forget e = true ->
  Events.handler_of (st w) options (Events.name_of e) = Some f ->
  Index.run_fn f (Events.receiver_of options e) (Events.arguments_of e) (st w)
    = (Throw v, s1) ->
  Events.dispatch options e w =
  (Return Undefined,
   World (Events.write_console (Events.diagnostics s1 (Events.name_of e) v) s1)
         (log w ++ [Called f (Events.receiver_of options e) (Events.arguments_of e) (st w);
                    Sink (Events.name_of e) v])).
Proof.
  intros FF Hh Hr. rewrite fire_and_forget_spec by done.
  unfold isolated. rewrite Hh, Hr. by rewrite <- app_assoc.
Qed.

(** C6.  For each firing of [extend] with protocol object [target]: the
    handler is called with [target] as receiver and with [target] as its
    only argument; nothing else is called. *)
Theorem extend_receiver_is_argument options target w f :
  Events.handler_of (st w) options "extend" = Some f ->
  exists w' sinks,
    Events.extend options target w = (Return Undefined, w') /\
    log w' = (log w ++ Called f target [target] (st w) :: sinks)%list /\
    Forall (fun ev => exists v, ev = Sink "extend" v) sinks /\
    heap (st w') = heap (Index.run_fn f target [target] (st w)).2.
Proof.
  intros Hh.
  pose proof (fire_and_forget_spec options (Events.Extend target) w eq_refl) as Hd.
  simpl in Hd. rewrite Hd. unfold isolated. simpl. rewrite Hh.
  destruct (Index.run_fn f target [target] (st w)) as [[r|v] s1]; simpl.
  - eexists _, []. split; [reflexivity|]. simpl. auto.
  - eexists _, [Sink "extend" v]. split; [reflexivity|]. simpl.
    rewrite <- app_assoc. split; [reflexivity|]. split; [|reflexivity].
    repeat constructor. eauto.
Qed.

(** C8.  For each call [unexpected(event, err)]: it returns normally and
    touches no object; with the suppression flag set (truthy) nothing is
    written; otherwise the line naming the event is written and, unless
    [err] is null/undefined, one more line: [err.stack] when it is
    available (truthy, as [||] tests it), else [err.message] when that is,
    else [err] itself. *)
Theorem unexpected_writes event err w :
  exists w',
    Events.unexpected event err w = (Return Undefined, w') /\
    heap (st w') = heap (st w) /\
    console (st w') =
      (console (st w) ++
       (if truthy (suppressErrors (st w)) then []
        else Str ("Unexpected error in '" ++ event ++ "' event handler.") ::
             (if Utils.isNull err then []
              else [if truthy (read_prop (st w) err "stack")
                    then read_prop (st w) err "stack"
                    else if truthy (read_prop (st w) err "message")
                         then read_prop (st w) err "message"
                         else err])))%list.
Proof.
  rewrite unexpected_spec. eexists. split; [reflexivity|].
  split; reflexivity.
Qed.

(** C5.  For the [error] event, whatever the handler does: the dispatch
    returns [undefined] and never throws; the store it leaves holds the
    objects exactly as the handler left them (as they were, when there is
    no handler), so the dispatcher itself changes nothing of [err]; and a
    value thrown by the handler goes to the diagnostic sink under the name
    "error". *)
Theorem error_event_keeps_error options err context w :
  exists w',
    Events.error options err context w = (Return Undefined, w') /\
    heap (st w') =
      heap (match Events.handler_of (st w) options "error" with
            | None => st w
            | Some f => (Index.run_fn f options [err; context] (st w)).2
            end) /\
    log w' =
      (log w ++
       match Events.handler_of (st w) options "error" with
       | None => []
       | Some f =>
           Called f options [err; context] (st w) ::
           match (Index.run_fn f options [err; context] (st w)).1 with
           | Throw v => [Sink "error" v]
           | Return _ => []
           end
       end)%list.
Proof.
  pose proof (fire_and_forget_spec options (Events.Error err context) w eq_refl) as Hd.
  simpl in Hd. rewrite Hd. unfold isolated. simpl.
  destruct (Events.handler_of (st w) options "error") as [f|].
  - destruct (Index.run_fn f options [err; context] (st w)) as [[r|v] s1]; simpl.
    + eexists. split; [reflexivity|]. split; reflexivity.
    + eexists. split; [reflexivity|]. simpl. rewrite <- app_assoc.
      split; reflexivity.
  - eexists. split; [reflexivity|]. rewrite app_nil_r. split; reflexivity.
Qed.

(** C9.  For each [receive] dispatch: the handler is given the very
    references [data], [result] and [context] of the caller -- no copy is
    made -- and every object the handler leaves in the store is, after the
    dispatch, exactly as the handler left it: what the handler did to the
    rows is what the caller finds, and the dispatcher itself changes none of
    them. *)
Theorem receive_shares_data options data result context w :
  exists c w',
    Events.receive options data result context w = (c, w') /\
    match Events.handler_of (st w) options "receive" with
    | None => c = Return Undefined /\ w' = w
    | Some f =>
        let after := (Index.run_fn f options [data; result; context] (st w)).2 in
        log w' = (log w ++ [Called f options [data; result; context] (st w)])%list /\
        forall l, is_Some (heap after !! l) -> heap (st w') !! l = heap after !! l
    end.
Proof.
  pose proof (veto_spec options (Events.Receive data result context) w eq_refl) as Hd.
  simpl in Hd. rewrite Hd. unfold vetoing. simpl.
  destruct (Events.handler_of (st w) options "receive") as [f|].
  - destruct (Index.run_fn f options [data; result; context] (st w)) as [[r|v] s1]; simpl.
    + eexists _, _. split; [reflexivity|]. simpl. auto.
    + eexists _, _. split; [reflexivity|]. simpl. split; [reflexivity|].
      intros l [x Hx]. apply lookup_insert_ne. intros <-.
      rewrite fresh_loc_None in Hx. discriminate.
  - eexists _, _. split; [reflexivity|]. split; reflexivity.
Qed.

End EventClaims.

Section VetoClaim.
Context {EV : Env}.

(** C1.  For the veto-capable events [query] and [receive]: without a
    handler, and when the handler returns, the dispatch returns [undefined]
    (no error).  When the handler throws [v], the dispatch returns an
    internal error wrapping [v]; the pending operation rejects with that
    very error, and nothing is observed after the handler call -- no driver
    interaction: for [query] the operation is [Query.execute], for
    [receive] it is the delivery of the rows that have arrived. *)
Theorem veto_handler_rejects options e w :
  Events.fire_and_forget e = false ->
  (Events.handler_of (st w) options (Events.name_of e) = None ->
   Events.dispatch options e w = (Return Undefined, w)) /\
  (forall f r s1,
     Events.handler_of (st w) options (Events.name_of e) = Some f ->
     Index.run_fn f options (Events.arguments_of e) (st w) = (Return r, s1) ->
     Events.dispatch options e w =
     (Return Undefined,
      World s1 (log w ++ [Called f options (Events.arguments_of e) (st w)]))) /\
  (forall f v s1,
     Events.handler_of (st w) options (Events.name_of e) = Some f ->
     Index.run_fn f options (Events.arguments_of e) (st w) = (Throw v, s1) ->
     exists err w',
       Events.dispatch options e w = (Return err, w') /\
       Utils.wraps (st w') err v /\
       log w' = (log w ++ [Called f options (Events.arguments_of e) (st w)])%list /\
       (forall l, is_Some (heap s1 !! l) -> heap (st w') !! l = heap s1 !! l) /\
       match e with
       | Events.Query context =>
           forall qry,
             Query.execute options context qry w = (Return (Rejected err), w')
       | Events.Receive data result context =>
           forall n,
             read_prop (st w) result "rows" = data ->
             read_prop (st w) data "length" = Num n ->
             (0 < n)%Z ->
             Query.deliver options context result w = (Return (Rejected err), w')
       | _ => True
       end).
Proof.
  intros FF. pose proof (veto_spec options e w FF) as Hd. unfold vetoing in Hd.
  split; [|split].
  - intros Hh. by rewrite Hh in Hd.
  - intros f r s1 Hh Hr. by rewrite Hh, Hr in Hd.
  - intros f v s1 Hh Hr. rewrite Hh, Hr in Hd.
    set (called := (log w ++ [Called f options (Events.arguments_of e) (st w)])%list) in *.
    unfold Utils.new_InternalError, alloc in Hd. simpl in Hd.
    eexists _, _. split; [exact Hd|].
    split; [|split; [reflexivity|split]].
    + eexists _, _. split; [reflexivity|].
      split; [apply lookup_insert_eq|]. split; [reflexivity|].
      cbn [props new_object]. by rewrite lookup_singleton_eq.
    + intros l [x Hx]. apply lookup_insert_ne. intros <-.
      rewrite fresh_loc_None in Hx. discriminate.
    + destruct e; try exact I; try discriminate.
      * intros qry. unfold Query.execute, bind. simpl in Hd. by rewrite Hd.
      * intros n Hrows Hlen Hn. unfold Query.deliver, bind, get_state.
        simpl. rewrite Hrows, Hlen.
        apply Z.ltb_lt in Hn. rewrite Hn. simpl in Hd. by rewrite Hd.
Qed.

End VetoClaim.

(* ===================================================================== *)
(** ** The event claims on the small configuration                        *)
(* ===================================================================== *)

Lemma veto_handler_rejects_witness :
  Events.dispatch (EV := Demo.env) Null (Events.Query Demo.ctx) Demo.start_world
    = (Return Undefined, Demo.start_world) /\
  Events.dispatch (EV := Demo.env) Demo.silent (Events.Query Demo.ctx) Demo.start_world
    = (Return Undefined,
       World (Index.run_fn (EV := Demo.env) (User 1) Demo.silent [Demo.ctx] Demo.start).2
             [Called (User 1) Demo.silent [Demo.ctx] Demo.start]) /\
  exists err w',
    Events.dispatch (EV := Demo.env) Demo.throwing (Events.Query Demo.ctx) Demo.start_world
      = (Return err, w') /\
    Utils.wraps (st w') err (Str "boom") /\
    Query.execute (EV := Demo.env) Demo.throwing Demo.ctx (Str "select 1") Demo.start_world
      = (Return (Rejected err), w').
Proof.
  split; [|split].
  - apply (veto_handler_rejects (EV := Demo.env) Null (Events.Query Demo.ctx) Demo.start_world).
    + reflexivity.
    + reflexivity.
  - destruct (veto_handler_rejects (EV := Demo.env) Demo.silent (Events.Query Demo.ctx)
                Demo.start_world eq_refl) as (_ & H & _).
    apply (H (User 1) Undefined).
    + vm_compute. reflexivity.
    + apply from_fst. vm_compute. reflexivity.
  - destruct (veto_handler_rejects (EV := Demo.env) Demo.throwing (Events.Query Demo.ctx)
                Demo.start_world eq_refl) as (_ & _ & H).
    destruct (H (User 0) (Str "boom")
                (Index.run_fn (EV := Demo.env) (User 0) Demo.throwing [Demo.ctx] Demo.start).2)
      as (err & w' & H1 & H2 & _ & _ & H5).
    + vm_compute. reflexivity.
    + apply from_fst. vm_compute. reflexivity.
    + exists err, w'. split; [exact H1|]. split; [exact H2|]. apply H5.
Defined.

Lemma dispatch_without_handler_witness :
  Events.dispatch (EV := Demo.env) Undefined (Events.Receive (Ref Demo.rows) (Ref Demo.result) Demo.ctx)
    Demo.start_world = (Return Undefined, Demo.start_world) /\
  Events.dispatch (EV := Demo.env) (Ref Demo.client) (Events.Connect (Ref Demo.client))
    Demo.start_world = (Return Undefined, Demo.start_world).
Proof.
  split.
  - apply (dispatch_without_handler (EV := Demo.env)). left. reflexivity.
  - apply (dispatch_without_handler (EV := Demo.env)). right. vm_compute. reflexivity.
Defined.

Lemma fire_and_forget_isolates_witness :
  Events.dispatch (EV := Demo.env) Demo.throwing (Events.Task Demo.ctx) Demo.start_world =
  (Return Undefined,
   World (State (heap (Index.run_fn (EV := Demo.env) (User 0) Demo.throwing [Demo.ctx] Demo.start).2)
                [Str "Unexpected error in 'task' event handler."; Str "boom"]
                Undefined false)
         [Called (User 0) Demo.throwing [Demo.ctx] Demo.start; Sink "task" (Str "boom")]).
Proof.
  apply (fire_and_forget_isolates (EV := Demo.env) Demo.throwing (Events.Task Demo.ctx)
           Demo.start_world (User 0) (Str "boom")).
  - reflexivity.
  - vm_compute. reflexivity.
  - apply from_fst. vm_compute. reflexivity.
Defined.

Lemma extend_receiver_is_argument_witness :
  exists w' sinks,
    Events.extend (EV := Demo.env) (Ref Demo.marking_options) (Ref Demo.client)
      Demo.start_world = (Return Undefined, w') /\
    log w' = Called (User 2) (Ref Demo.client) [Ref Demo.client] Demo.start :: sinks.
Proof.
  destruct (extend_receiver_is_argument (EV := Demo.env) (Ref Demo.marking_options)
              (Ref Demo.client) Demo.start_world (User 2))
    as (w' & sinks & H1 & H2 & _).
  - vm_compute. reflexivity.
  - exists w', sinks. split; [exact H1 | exact H2].
Defined.

(* ===================================================================== *)
(** ** Properties of library initialisation                               *)
(* ===================================================================== *)

Section InitClaims.
Context {EV : Env}.

Lemma throw_TypeError_spec {A} msg w :
  exists e w',
    @throw_TypeError A msg w = (Throw e, w') /\
    is_TypeError (st w') e msg = true /\
    log w' = log w /\
    (forall l, is_Some (heap (st w) !! l) -> heap (st w') !! l = heap (st w) !! l).
Proof.
  eexists _, _. split; [reflexivity|]. split; [|split; [reflexivity|]].
  - unfold is_TypeError. cbn [st heap set_heap]. rewrite lookup_insert_eq.
    cbn [okind props new_object]. rewrite lookup_singleton_eq. simpl.
    by apply bool_decide_eq_true.
  - intros l [x Hx]. cbn [st heap set_heap]. apply lookup_insert_ne. intros <-.
    rewrite fresh_loc_None in Hx. discriminate.
Qed.

Lemma String_eqb_false a b : a <> b -> String.eqb a b = false.
Proof. intros. by apply String.eqb_neq. Qed.

(** C10.  [$main(options)] validates its argument: a non-null [options]
    whose type is neither 'object' nor 'string' makes it throw the
    TypeError "Invalid initialization options."; an [options] object with
    a [host] or a [database] property makes it throw the TypeError
    "Invalid library initialization: ...".  The instance function it
    returns throws the TypeError "Invalid connection details." for a
    connection that is falsy or is neither a string nor an object. *)
Theorem initialisation_validates ns options cn w :
  (Utils.isNull options = false ->
   typeof (st w) options <> "object" ->
   typeof (st w) options <> "string" ->
   exists e w',
     Index.main ns options w = (Throw e, w') /\
     is_TypeError (st w') e "Invalid initialization options." = true) /\
  (Utils.isNull options = false ->
   typeof (st w) options = "object" ->
   has_property (st w) options "host" = true \/
   has_property (st w) options "database" = true ->
   exists e w',
     Index.main ns options w = (Throw e, w') /\
     is_TypeError (st w') e
       "Invalid library initialization: must initialize the library before creating a database object."
       = true) /\
  (truthy cn = false \/
   (typeof (st w) cn <> "string" /\ typeof (st w) cn <> "object") ->
   exists e w',
     Index.inst options cn w = (Throw e, w') /\
     is_TypeError (st w') e "Invalid connection details." = true).
Proof.
  split; [|split].
  - intros Hn Ho Hs.
    destruct (@throw_TypeError_spec value Index.msg_invalid_options w)
      as (e & w' & H1 & H2 & _).
    exists e, w'. split; [|exact H2].
    unfold Index.main, Index.check_options, bind, get_state. rewrite Hn. simpl.
    rewrite (String_eqb_false _ _ Hs). simpl. rewrite (String_eqb_false _ _ Ho).
    exact H1.
  - intros Hn Ho Hp.
    assert (typeof (st w) options <> "string") as Hs by (rewrite Ho; discriminate).
    assert (has_property (st w) options "host" || has_property (st w) options "database"
            = true) as Hb.
    { destruct Hp as [-> | ->]; [reflexivity | apply orb_true_r]. }
    destruct (@throw_TypeError_spec value Index.msg_invalid_init w)
      as (e & w' & H1 & H2 & _).
    exists e, w'. split; [|exact H2].
    unfold Index.main, Index.check_options, bind, get_state. rewrite Hn. simpl.
    rewrite (String_eqb_false _ _ Hs). simpl. rewrite Ho. simpl. rewrite Hb. simpl.
    exact H1.
  - intros Hc.
    destruct (@throw_TypeError_spec value Index.msg_invalid_cn w)
      as (e & w' & H1 & H2 & _).
    exists e, w'. split; [|exact H2].
    unfold Index.inst, bind, get_state. simpl.
    assert (truthy cn &&
            (String.eqb (typeof (st w) cn) "string" || String.eqb (typeof (st w) cn) "object")
            = false) as ->; [|exact H1].
    destruct Hc as [-> | [Hs Ho]]; [reflexivity|].
    rewrite (String_eqb_false _ _ Hs), (String_eqb_false _ _ Ho). apply andb_false_r.
Qed.

End InitClaims.

Lemma initialisation_validates_witness :
  (exists e w',
     Index.main (EV := Demo.env) (Ref Demo.module_other) (Num 5) Demo.start_world
       = (Throw e, w') /\
     is_TypeError (st w') e "Invalid initialization options." = true) /\
  (exists e w',
     Index.main (EV := Demo.env) (Ref Demo.module_other) (Ref Demo.connection_options)
       Demo.start_world = (Throw e, w') /\
     is_TypeError (st w') e
       "Invalid library initialization: must initialize the library before creating a database object."
       = true) /\
  (exists e w',
     Index.inst (EV := Demo.env) Undefined (Str "") Demo.start_world = (Throw e, w') /\
     is_TypeError (st w') e "Invalid connection details." = true) /\
  (exists e w',
     Index.inst (EV := Demo.env) Undefined (Ref Demo.quiet) Demo.start_world = (Throw e, w') /\
     is_TypeError (st w') e "Invalid connection details." = true).
Proof.
  split; [|split; [|split]].
  - apply (initialisation_validates (EV := Demo.env) (Ref Demo.module_other) (Num 5)
             Undefined Demo.start_world); [reflexivity | discriminate | discriminate].
  - apply (initialisation_validates (EV := Demo.env) (Ref Demo.module_other)
             (Ref Demo.connection_options) Undefined Demo.start_world).
    + reflexivity.
    + vm_compute. reflexivity.
    + left. vm_compute. reflexivity.
  - apply (initialisation_validates (EV := Demo.env) (Ref Demo.module_other) Undefined
             (Str "") Demo.start_world). left. reflexivity.
  - apply (initialisation_validates (EV := Demo.env) (Ref Demo.module_other) Undefined
             (Ref Demo.quiet) Demo.start_world). right.
    split; vm_compute; discriminate.
Defined.

(* ===================================================================== *)
(** ** Properties of namespace locking                                    *)
(* ===================================================================== *)

Section Locking.
Context {EV : Env}.

Lemma lock_prop_idem p : Utils.lock_prop (Utils.lock_prop p) = Utils.lock_prop p.
Proof. reflexivity. Qed.

Lemma lock_object_idem o : Utils.lock_object (Utils.lock_object o) = Utils.lock_object o.
Proof.
  unfold Utils.lock_object. simpl. f_equal.
  rewrite <- map_fmap_compose. apply map_fmap_ext. reflexivity.
Qed.

Lemma lock_set_lookup X h l :
  Utils.lock_set X h !! l =
  (fun o => if decide (l ∈ X) then Utils.lock_object o else o) <$> h !! l.
Proof.
  unfold Utils.lock_set. rewrite map_lookup_imap. by destruct (h !! l).
Qed.

Lemma lock_set_idem X h : Utils.lock_set X (Utils.lock_set X h) = Utils.lock_set X h.
Proof.
  apply map_eq. intros l. rewrite !lock_set_lookup.
  destruct (h !! l) as [o|]; simpl; [|done].
  destruct (decide (l ∈ X)); [|done]. by rewrite lock_object_idem.
Qed.

Lemma points_to_lock_object o l' :
  map_Exists (fun _ p => pval p = Ref l') (props (Utils.lock_object o)) <->
  map_Exists (fun _ p => pval p = Ref l') (props o).
Proof.
  unfold map_Exists, Utils.lock_object. simpl. split.
  - intros (i & p & Hp & Hv). rewrite lookup_fmap in Hp.
    destruct (props o !! i) as [q|] eqn:Q; [|discriminate].
    injection Hp as <-. eauto.
  - intros (i & p & Hp & Hv). exists i, (Utils.lock_prop p).
    rewrite lookup_fmap, Hp. auto.
Qed.

Lemma points_to_lock_set X h a b :
  Utils.points_to (Utils.lock_set X h) a b <-> Utils.points_to h a b.
Proof.
  unfold Utils.points_to. split.
  - intros (o & Ho & Hp). rewrite lock_set_lookup in Ho.
    destruct (h !! a) as [o'|]; [|discriminate]. injection Ho as <-.
    exists o'. split; [done|].
    destruct (decide (a ∈ X)); [by apply points_to_lock_object | done].
  - intros (o & Ho & Hp). rewrite lock_set_lookup, Ho. simpl.
    eexists. split; [reflexivity|].
    destruct (decide (a ∈ X)); [by apply points_to_lock_object | done].
Qed.

Lemma nested_step_lock_set X h Y :
  Utils.nested_step (Utils.lock_set X h) Y = Utils.nested_step h Y.
Proof.
  unfold Utils.nested_step. rewrite lock_set_dom. f_equal.
  apply set_eq. intros l. rewrite !elem_of_filter. unfold set_Exists.
  split; intros [(a & Ha & Hp) Hd]; (split; [|done]); exists a; (split; [done|]);
    by apply (points_to_lock_set X h a l).
Qed.

Lemma nested_iter_lock_set X h n Y :
  Utils.nested_iter (Utils.lock_set X h) n Y = Utils.nested_iter h n Y.
Proof.
  revert Y. induction n as [|n IH]; intros Y; simpl; [done|].
  by rewrite nested_step_lock_set, IH.
Qed.

Lemma nested_lock_set X h l : Utils.nested (Utils.lock_set X h) l = Utils.nested h l.
Proof.
  unfold Utils.nested. rewrite nested_iter_lock_set. f_equal.
  rewrite <- !size_dom. by rewrite lock_set_dom.
Qed.

Lemma nested_iter_grows h n Y : Y ⊆ Utils.nested_iter h n Y.
Proof.
  revert Y. induction n as [|n IH]; intros Y; simpl; [done|].
  etrans; [|apply IH]. unfold Utils.nested_step. set_solver.
Qed.

Lemma nested_self h l : l ∈ Utils.nested h l.
Proof. apply nested_iter_grows. set_solver. Qed.

Lemma targets_contain_self h l deep : l ∈ Utils.lock_targets h l deep.
Proof. destruct deep; simpl; [apply nested_self | set_solver]. Qed.

Lemma targets_after_lock_set X h l deep :
  Utils.lock_targets (Utils.lock_set X h) l deep = Utils.lock_targets h l deep.
Proof. destruct deep; simpl; [apply nested_lock_set | done]. Qed.

Lemma lock_flag_set target deep w :
  noLocking (st w) = true -> Utils.lock target deep w = (Return tt, w).
Proof. intros Hf. unfold Utils.lock, bind, get_state. simpl. by rewrite Hf. Qed.

Lemma lock_flag_clear l deep w :
  noLocking (st w) = false ->
  Utils.lock (Ref l) deep w =
  (Return tt,
   World (set_heap (Utils.lock_set (Utils.lock_targets (heap (st w)) l deep) (heap (st w))) (st w))
         (log w)).
Proof. intros Hf. unfold Utils.lock, bind, get_state. simpl. by rewrite Hf. Qed.

Lemma lock_idempotent target deep w :
  Utils.lock target deep (Utils.lock target deep w).2 =
  (Return tt, (Utils.lock target deep w).2).
Proof.
  destruct (noLocking (st w)) eqn:Hf.
  - rewrite (lock_flag_set _ _ w Hf). simpl. by apply lock_flag_set.
  - destruct target as [| | | | | | | |l];
      try (unfold Utils.lock, bind, get_state; simpl; rewrite Hf; simpl; by rewrite Hf).
    rewrite (lock_flag_clear _ _ w Hf). simpl.
    rewrite lock_flag_clear by done. simpl.
    rewrite targets_after_lock_set, lock_set_idem. reflexivity.
Qed.

(** An assignment to a locked object is rejected, whatever the name. *)
Lemma locked_rejects l o name x w :
  heap (st w) !! l = Some (Utils.lock_object o) ->
  exists e w',
    set_prop (Ref l) name x w = (Throw e, w') /\
    (is_TypeError (st w') e ("Cannot assign to read only property '" ++ name ++ "'") = true \/
     is_TypeError (st w') e
       ("Cannot add property '" ++ name ++ "', object is not extensible") = true) /\
    heap (st w') !! l = Some (Utils.lock_object o).
Proof.
  intros Hl. unfold set_prop, bind, get_state. simpl. rewrite Hl.
  cbn [props extensible Utils.lock_object]. rewrite lookup_fmap.
  destruct (props o !! name) as [p|]; simpl.
  - destruct (@throw_TypeError_spec unit
                ("Cannot assign to read only property '" ++ name ++ "'") w)
      as (e & w' & H1 & H2 & _ & H4).
    exists e, w'. split; [exact H1|]. split; [by left|].
    rewrite H4; [exact Hl | eauto].
  - destruct (@throw_TypeError_spec unit
                ("Cannot add property '" ++ name ++ "', object is not extensible") w)
      as (e & w' & H1 & H2 & _ & H4).
    exists e, w'. split; [exact H1|]. split; [by right|].
    rewrite H4; [exact Hl | eauto].
Qed.

Lemma locked_after_lock l o deep w :
  noLocking (st w) = false ->
  heap (st w) !! l = Some o ->
  heap (st (Utils.lock (Ref l) deep w).2) !! l = Some (Utils.lock_object o).
Proof.
  intros Hf Hl. rewrite lock_flag_clear by done. simpl.
  rewrite lock_set_lookup, Hl. simpl.
  destruct (decide (l ∈ Utils.lock_targets (heap (st w)) l deep)) as [|N]; [done|].
  destruct N. apply targets_contain_self.
Qed.

(** An assignment to an open object with the property writable or missing
    goes through. *)
Lemma open_accepts l o name x w :
  heap (st w) !! l = Some o ->
  extensible o = true ->
  (forall p, props o !! name = Some p -> writable p = true) ->
  exists w',
    set_prop (Ref l) name x w = (Return tt, w') /\
    read_prop (st w') (Ref l) name = x.
Proof.
  intros Hl He Hw. unfold set_prop, bind, get_state. simpl. rewrite Hl.
  assert (read_prop (write_prop l name x (st w)) (Ref l) name = x) as Hr.
  { unfold read_prop, write_prop. simpl. rewrite lookup_alter_eq, Hl. simpl.
    rewrite lookup_insert_eq. by destruct (props o !! name). }
  destruct (props o !! name) as [p|] eqn:Hp.
  - rewrite (Hw p eq_refl). eexists. split; [reflexivity|]. exact Hr.
  - rewrite He. eexists. split; [reflexivity|]. exact Hr.
Qed.

Lemma tame_run {A} (m : M A) w c w' :
  tame m -> m w = (c, w') ->
  dom (heap (st w)) ⊆ dom (heap (st w')) /\ log w' = log w.
Proof.
  intros Hm Hr. destruct w as [s lg]. destruct (Hm s lg) as [E1 D].
  rewrite Hr in E1. injection E1 as -> ->. simpl. auto.
Qed.

(** [$main] locks the function it returns, whatever [options] holds. *)
Lemma main_locks_instance ns options w inst w1 :
  Index.main ns options w = (Return inst, w1) ->
  noLocking (st w1) = false ->
  exists l o, inst = Ref l /\ heap (st w1) !! l = Some (Utils.lock_object o).
Proof.
  unfold Index.main. unfold bind at 1.
  destruct (Index.check_options options w) as [[v|v] wa]; [|discriminate].
  destruct (truthy v).
  { destruct (@throw_TypeError_spec value Index.msg_invalid_init wa)
      as (e & w' & -> & _). discriminate. }
  unfold bind at 1. unfold get_state at 1. unfold bind at 1.
  destruct (lift _ wa) as [[[]|v'] wb]; [|discriminate].
  unfold bind at 1. unfold alloc at 1.
  set (l := fresh_loc (st wb)).
  set (wc := World (set_heap (<[l := _]> (heap (st wb))) (st wb)) (log wb)).
  unfold bind at 1.
  destruct (Utils.addProperties (Ref l) ns wc) as [[[]|v''] wd] eqn:Ha; [|discriminate].
  destruct (tame_run _ _ _ _ (tame_addProperties (Ref l) ns) Ha) as [Hdom _].
  assert (is_Some (heap (st wd) !! l)) as [o Ho].
  { apply elem_of_dom, Hdom. subst wc. simpl. rewrite dom_insert_L. set_solver. }
  unfold bind. destruct (Utils.lock (Ref l) false wd) as [[[]|v3] we] eqn:Hl;
    [|discriminate].
  intros [= <- <-] Hf.
  assert (noLocking (st wd) = false) as Hfd.
  { destruct (noLocking (st wd)) eqn:Q; [|done].
    rewrite (lock_flag_set _ _ _ Q) in Hl. injection Hl as <-. congruence. }
  exists l, o. split; [done|].
  pose proof (locked_after_lock l o false wd Hfd Ho) as Hk. by rewrite Hl in Hk.
Qed.

(** C4 (amended).  Locking a namespace object a second time changes
    nothing.  After a locking call made while the no-locking flag is clear,
    every attempt to add a member to the object or to overwrite one of its
    members fails with a TypeError (write protection) and leaves the object
    as it is.  While the process-wide no-locking flag is set, a locking call
    does nothing, so that the same attempt on an open object goes through.
    That flag is not the [noLocking] option given to [$main]: [$main] locks
    the object it returns whatever its [options] are. *)
Theorem locking_protects target deep w :
  Utils.lock target deep (Utils.lock target deep w).2 =
    (Return tt, (Utils.lock target deep w).2) /\
  (forall l o name x,
     target = Ref l ->
     noLocking (st w) = false ->
     heap (st w) !! l = Some o ->
     exists e w',
       set_prop target name x (Utils.lock target deep w).2 = (Throw e, w') /\
       (is_TypeError (st w') e
          ("Cannot assign to read only property '" ++ name ++ "'") = true \/
        is_TypeError (st w') e
          ("Cannot add property '" ++ name ++ "', object is not extensible") = true) /\
       heap (st w') !! l = Some (Utils.lock_object o)) /\
  (noLocking (st w) = true ->
   Utils.lock target deep w = (Return tt, w) /\
   forall l o name x,
     target = Ref l ->
     heap (st w) !! l = Some o ->
     extensible o = true ->
     (forall p, props o !! name = Some p -> writable p = true) ->
     exists w',
       set_prop target name x (Utils.lock target deep w).2 = (Return tt, w') /\
       read_prop (st w') target name = x) /\
  (forall ns options inst w1 name x,
     Index.main ns options w = (Return inst, w1) ->
     noLocking (st w1) = false ->
     exists e w',
       set_prop inst name x w1 = (Throw e, w') /\
       (is_TypeError (st w') e
          ("Cannot assign to read only property '" ++ name ++ "'") = true \/
        is_TypeError (st w') e
          ("Cannot add property '" ++ name ++ "', object is not extensible") = true)).
Proof.
  split; [apply lock_idempotent|]. split; [|split].
  - intros l o name x -> Hf Hl.
    apply locked_rejects. by apply locked_after_lock.
  - intros Hf. split; [by apply lock_flag_set|].
    intros l o name x -> Hl He Hw. rewrite lock_flag_set by done.
    by apply (open_accepts l o).
  - intros ns options inst w1 name x Hm Hf.
    destruct (main_locks_instance _ _ _ _ _ Hm Hf) as (l & o & -> & Hl).
    destruct (locked_rejects l o name x w1 Hl) as (e & w' & H1 & H2 & _).
    eauto.
Qed.

End Locking.

(** C4 as stated fails on the code: the library is initialised with
    [{noLocking: true}], and yet assigning to the built-in member [end] of
    the root object, or to a member of the namespace [as], throws the
    write-protection TypeError instead of succeeding. *)
Lemma noLocking_option_leaves_root_locked :
  read_prop Demo.start (Ref Demo.unlocking_options) "noLocking" = Bool true /\
  (exists e,
     (Demo.overwrite_end Demo.start_world).1 = Throw e /\
     is_TypeError (st (Demo.overwrite_end Demo.start_world).2) e
       "Cannot assign to read only property 'end'" = true) /\
  (exists e,
     (Demo.overwrite_as_text Demo.start_world).1 = Throw e /\
     is_TypeError (st (Demo.overwrite_as_text Demo.start_world).2) e
       "Cannot assign to read only property 'text'" = true) /\
  ~ (exists w', Demo.overwrite_end Demo.start_world = (Return tt, w')).
Proof.
  split; [vm_compute; reflexivity|].
  split; [exists (Ref 20%positive); split; vm_compute; reflexivity|].
  split; [exists (Ref 20%positive); split; vm_compute; reflexivity|].
  intros [w' Hw]. apply (f_equal fst) in Hw. vm_compute in Hw. discriminate.
Qed.

Lemma locking_protects_witness :
  (exists e w',
     set_prop (Ref Demo.module_as) "text" Null
       (Utils.lock (Ref Demo.module_as) true Demo.start_world).2 = (Throw e, w')) /\
  (exists e w',
     set_prop (Ref Demo.module_as) "extra" Null
       (Utils.lock (Ref Demo.module_as) true Demo.start_world).2 = (Throw e, w')) /\
  (exists w',
     set_prop (Ref Demo.module_as) "text" Null
       (Utils.lock (Ref Demo.module_as) true Demo.unlocked_world).2 = (Return tt, w') /\
     read_prop (st w') (Ref Demo.module_as) "text" = Null) /\
  (exists e w',
     set_prop (Ref (fresh_loc Demo.start)) "end" Null
       (Index.main (EV := Demo.env) (Ref Demo.module_as) (Ref Demo.unlocking_options)
          Demo.start_world).2 = (Throw e, w')).
Proof.
  split; [|split; [|split]].
  - destruct (locking_protects (EV := Demo.env) (Ref Demo.module_as) true Demo.start_world)
      as (_ & H & _).
    destruct (H Demo.module_as (new_object KObject {["text" := data_prop (Ref Demo.quiet)]})
                "text" Null) as (e & w' & H1 & _).
    + reflexivity.
    + reflexivity.
    + vm_compute. reflexivity.
    + exists e, w'. exact H1.
  - destruct (locking_protects (EV := Demo.env) (Ref Demo.module_as) true Demo.start_world)
      as (_ & H & _).
    destruct (H Demo.module_as (new_object KObject {["text" := data_prop (Ref Demo.quiet)]})
                "extra" Null) as (e & w' & H1 & _).
    + reflexivity.
    + reflexivity.
    + vm_compute. reflexivity.
    + exists e, w'. exact H1.
  - destruct (locking_protects (EV := Demo.env) (Ref Demo.module_as) true
                Demo.unlocked_world) as (_ & _ & H & _).
    destruct (H eq_refl) as [_ H'].
    apply (H' Demo.module_as (new_object KObject {["text" := data_prop (Ref Demo.quiet)]})).
    + reflexivity.
    + vm_compute. reflexivity.
    + reflexivity.
    + intros p Hp. vm_compute in Hp. injection Hp as <-. reflexivity.
  - destruct (locking_protects (EV := Demo.env) Undefined false Demo.start_world)
      as (_ & _ & _ & H).
    destruct (H (Ref Demo.module_as) (Ref Demo.unlocking_options)
                (Ref (fresh_loc Demo.start))
                (Index.main (EV := Demo.env) (Ref Demo.module_as)
                   (Ref Demo.unlocking_options) Demo.start_world).2 "end" Null)
      as (e & w' & H1 & _).
    + apply from_fst. vm_compute. reflexivity.
    + vm_compute. reflexivity.
    + exists e, w'. exact H1.
Defined.

(* ===================================================================== *)
(** ** Properties of the task/transaction context                         *)
(* ===================================================================== *)

Section ContextClaims.
Context {EV : Env}.

Lemma field_heap s s' l name :
  heap s' !! l = heap s !! l -> Task.field s' (Ref l) name = Task.field s (Ref l) name.
Proof. intros E. unfold Task.field. by rewrite E. Qed.

Lemma create_spec isTX start tag w :
  exists lc o w0,
    Task.create isTX start tag w = (Return (Ref lc), w0) /\
    heap (st w0) !! lc = Some o /\
    props o !! "finish" = None /\ props o !! "success" = None /\
    props o !! "result" = None.
Proof.
  unfold Task.create, bind, alloc. simpl.
  eexists _, _, _. split; [reflexivity|]. simpl.
  split; [apply lookup_insert_eq|]. simpl.
  repeat split; vm_compute; reflexivity.
Qed.

Lemma pending_of_fresh s l o :
  heap s !! l = Some o ->
  props o !! "finish" = None -> props o !! "success" = None ->
  props o !! "result" = None ->
  Task.pending s (Ref l).
Proof.
  intros Hl Hf Hs Hr. unfold Task.pending, Task.field. rewrite Hl, Hf, Hs, Hr. done.
Qed.

Lemma pending_consistent s ctx : Task.pending s ctx -> Task.consistent s ctx.
Proof. intros (Hf & Hs & Hr). unfold Task.consistent. tauto. Qed.

Lemma finished_consistent s ctx outcome :
  Task.finished s ctx outcome -> Task.consistent s ctx.
Proof.
  intros ((d & t & Hf & _) & Hs & Hr). unfold Task.consistent.
  rewrite Hf, Hs, Hr. split; [discriminate | intros [? _]; discriminate].
Qed.

Lemma finished_of_settled s l o ld t outcome :
  heap s !! l = Some (Task.settle_object (Ref ld) outcome o) ->
  kind_of s ld = Some (KDate t) ->
  Task.finished s (Ref l) outcome.
Proof.
  intros Hl Hd. unfold Task.finished, Task.field. rewrite Hl.
  unfold Task.settle_object. cbn [props]. split; [|split].
  - exists ld, t. split; [|exact Hd]. by rewrite lookup_insert_eq.
  - rewrite lookup_insert_ne by done. by rewrite lookup_insert_eq.
  - rewrite !lookup_insert_ne by done. by rewrite lookup_insert_eq.
Qed.

Lemma complete_spec l o now outcome w :
  heap (st w) !! l = Some o ->
  exists ld w',
    Task.complete (Ref l) now outcome w = (Return tt, w') /\
    heap (st w') !! l = Some (Task.settle_object (Ref ld) outcome o) /\
    kind_of (st w') ld = Some (KDate now).
Proof.
  intros Hl. unfold Task.complete, bind, alloc, modify. simpl.
  set (ld := fresh_loc (st w)).
  assert (ld <> l) as Hne.
  { intros E'. rewrite <- E' in Hl. unfold ld in Hl.
    rewrite fresh_loc_None in Hl. discriminate. }
  eexists ld, _. split; [reflexivity|]. simpl. split.
  - rewrite lookup_alter_eq, lookup_insert_ne, Hl by done. reflexivity.
  - unfold kind_of. simpl.
    rewrite lookup_alter_ne, lookup_insert_eq by done. reflexivity.
Qed.

Lemma isolated_returns options e w :
  exists w',
    isolated options e w = (Return Undefined, w') /\
    dom (heap (st w)) ⊆ dom (heap (st w')) /\
    forall f,
      Events.handler_of (st w) options (Events.name_of e) = Some f ->
      In (Called f (Events.receiver_of options e) (Events.arguments_of e) (st w)) (log w').
Proof.
  unfold isolated.
  destruct (Events.handler_of (st w) options (Events.name_of e)) as [f|].
  - pose proof (run_fn_grows f (Events.receiver_of options e) (Events.arguments_of e) (st w))
      as Hg.
    destruct (Index.run_fn f (Events.receiver_of options e) (Events.arguments_of e) (st w))
      as [[r|v] s1]; simpl in *.
    + eexists. split; [reflexivity|]. split; [exact Hg|].
      intros f' [= <-]. simpl. apply in_or_app. right. by left.
    + eexists. split; [reflexivity|]. split; [exact Hg|].
      intros f' [= <-]. simpl. apply in_or_app. left. apply in_or_app. right. by left.
  - eexists. split; [reflexivity|]. split; [done|]. intros f [=].
Qed.

Lemma firing_of_fire_and_forget isTX e :
  Events.fire_and_forget (Task.firing_of isTX e) = true.
Proof. by destruct isTX. Qed.

Lemma firing_of_payload isTX options e :
  Events.receiver_of options (Task.firing_of isTX e) = options /\
  Events.arguments_of (Task.firing_of isTX e) = [e].
Proof. by destruct isTX. Qed.

(** A notification: the event context is a new object that refers to the
    context; the handler, if any, is called with it. *)
Lemma notify_spec isTX options client ctx w :
  exists le w1 w',
    Task.notify isTX options client ctx w = (Return Undefined, w') /\
    Events.dispatch options (Task.firing_of isTX (Ref le)) w1 = (Return Undefined, w') /\
    read_prop (st w1) (Ref le) "ctx" = ctx /\
    (forall l, is_Some (heap (st w) !! l) -> heap (st w1) !! l = heap (st w) !! l) /\
    dom (heap (st w1)) ⊆ dom (heap (st w')) /\
    forall f,
      Events.handler_of (st w1) options (Events.name_of (Task.firing_of isTX (Ref le)))
        = Some f ->
      In (Called f options [Ref le] (st w1)) (log w').
Proof.
  unfold Task.notify, bind, alloc.
  set (le := fresh_loc (st w)).
  set (w1 := World (set_heap (<[le := Task.event_context client ctx]> (heap (st w))) (st w))
                   (log w)).
  rewrite fire_and_forget_spec by apply firing_of_fire_and_forget.
  destruct (isolated_returns options (Task.firing_of isTX (Ref le)) w1)
    as (w' & Hi & Hd & Hc).
  exists le, w1, w'. rewrite Hi. split; [reflexivity|].
  split; [by rewrite fire_and_forget_spec by apply firing_of_fire_and_forget|].
  split; [|split; [|split]].
  - unfold read_prop. subst w1. simpl. rewrite lookup_insert_eq.
    unfold Task.event_context. cbn [props new_object].
    vm_compute. reflexivity.
  - intros l [x Hx]. subst w1. simpl. apply lookup_insert_ne. intros <-.
    subst le. rewrite fresh_loc_None in Hx. discriminate.
  - exact Hd.
  - intros f Hf. specialize (Hc f Hf).
    destruct (firing_of_payload isTX options (Ref le)) as [-> ->] in Hc. exact Hc.
Qed.

(** C3.  For a task/transaction context: at creation [finish], [success]
    and [result] are all absent; the completion transition sets the three
    together, [success = true] with [result] the resolved value on
    fulfilment and [success = false] with [result] the rejection reason on
    rejection; so [finish] is absent exactly when [success] and [result]
    are.  In a run, the start notification carries the context with the
    three absent, and the finish notification -- what the task/transact
    handler is called with -- carries it with [finish] set and with
    [success] and [result] telling how the operation settled. *)
Theorem context_lifecycle isTX options client tag start finish body w :
  (exists ctx w0,
     Task.create isTX start tag w = (Return ctx, w0) /\
     Task.pending (st w0) ctx /\ Task.consistent (st w0) ctx) /\
  (forall l o outcome,
     heap (st w) !! l = Some o ->
     exists w',
       Task.complete (Ref l) finish outcome w = (Return tt, w') /\
       Task.finished (st w') (Ref l) outcome /\ Task.consistent (st w') (Ref l)) /\
  (exists ctx e1 w1 w1' e2 w2 w3 outcome,
     Task.run isTX options client tag start finish body w = (Return outcome, w3) /\
     outcome = (body (st w1')).1 /\
     Events.dispatch options (Task.firing_of isTX e1) w1 = (Return Undefined, w1') /\
     read_prop (st w1) e1 "ctx" = ctx /\
     Task.pending (st w1) ctx /\
     Events.dispatch options (Task.firing_of isTX e2) w2 = (Return Undefined, w3) /\
     read_prop (st w2) e2 "ctx" = ctx /\
     Task.finished (st w2) ctx outcome /\
     Task.consistent (st w2) ctx /\
     forall f,
       Events.handler_of (st w2) options (Events.name_of (Task.firing_of isTX e2)) = Some f ->
       In (Called f options [e2] (st w2)) (log w3)).
Proof.
  destruct (create_spec isTX start tag w) as (lc & o & w0 & Hc & Hlc & Hf & Hs & Hr).
  split; [|split].
  - exists (Ref lc), w0. split; [exact Hc|].
    assert (Task.pending (st w0) (Ref lc)) as Hp by by apply (pending_of_fresh _ _ o).
    split; [exact Hp | by apply pending_consistent].
  - intros l o' outcome Hl.
    destruct (complete_spec l o' finish outcome w Hl) as (ld & w' & H1 & H2 & H3).
    exists w'. split; [exact H1|].
    assert (Task.finished (st w') (Ref l) outcome) as Hfin
      by by apply (finished_of_settled _ _ o' ld finish).
    split; [exact Hfin | by apply (finished_consistent _ _ outcome)].
  - unfold Task.run. unfold bind at 1. rewrite Hc.
    destruct (notify_spec isTX options client (Ref lc) w0)
      as (le1 & w1 & w1' & Hn1 & Hd1 & Hr1 & Hfr1 & Hdom1 & _).
    unfold bind at 1. rewrite Hn1.
    unfold bind at 1. unfold lift at 1.
    destruct (body (st w1')) as [outcome s2] eqn:Hb.
    set (wb := World (retain (st w1') s2) (log w1')).
    assert (heap (st w1) !! lc = Some o) as Hlc1 by (rewrite Hfr1; eauto).
    assert (is_Some (heap (st wb) !! lc)) as [o2 Ho2].
    { apply elem_of_dom. subst wb. simpl. rewrite dom_union_L.
      apply elem_of_union_r, Hdom1, elem_of_dom. eauto. }
    destruct (complete_spec lc o2 finish outcome wb Ho2) as (ld & wc & Hcomp & Hlc' & Hkd).
    unfold bind at 1. rewrite Hcomp.
    destruct (notify_spec isTX options client (Ref lc) wc)
      as (le2 & w2 & w3 & Hn2 & Hd2 & Hr2 & Hfr2 & _ & Hcall2).
    unfold bind at 1. rewrite Hn2.
    exists (Ref lc), (Ref le1), w1, w1', (Ref le2), w2, w3, outcome.
    split; [reflexivity|]. split; [by rewrite Hb|]. split; [exact Hd1|].
    split; [exact Hr1|]. split; [by apply (pending_of_fresh _ _ o)|].
    split; [exact Hd2|]. split; [exact Hr2|].
    assert (Task.finished (st w2) (Ref lc) outcome) as Hfin.
    { apply (finished_of_settled _ _ o2 ld finish).
      - rewrite Hfr2; eauto.
      - unfold kind_of in *. rewrite Hfr2; [exact Hkd|].
        destruct (heap (st wc) !! ld); [eauto | discriminate]. }
    split; [exact Hfin|]. split; [by apply (finished_consistent _ _ outcome)|].
    exact Hcall2.
Qed.

End ContextClaims.

Lemma context_lifecycle_witness :
  exists w',
    Task.complete (Ref Demo.context) 2000 (Rejected (Str "boom")) Demo.start_world
      = (Return tt, w') /\
    Task.field (st w') (Ref Demo.context) "success" = Some (Bool false) /\
    Task.field (st w') (Ref Demo.context) "result" = Some (Str "boom").
Proof.
  destruct (context_lifecycle (EV := Demo.env) false Demo.silent (Ref Demo.client)
              Undefined 1000 2000 (fun s => (Resolved (Num 42), s)) Demo.start_world)
    as (_ & H & _).
  destruct (H Demo.context (new_object KObject {["client" := data_prop (Ref Demo.client)]})
              (Rejected (Str "boom")))
    as (w' & H1 & (_ & H2 & H3) & _).
  - vm_compute. reflexivity.
  - exists w'. split; [exact H1|]. split; [exact H2 | exact H3].
Defined.

(* ===================================================================== *)
(** ** More runs on the small configuration                               *)
(* ===================================================================== *)

Lemma unexpected_writes_witness :
  exists w',
    Events.unexpected "task" (Ref Demo.row) Demo.start_world = (Return Undefined, w') /\
    console (st w') = [Str "Unexpected error in 'task' event handler."; Ref Demo.row].
Proof.
  destruct (unexpected_writes "task" (Ref Demo.row) Demo.start_world)
    as (w' & H1 & _ & H3).
  exists w'. split; [exact H1|]. rewrite H3. vm_compute. reflexivity.
Defined.

Lemma error_event_keeps_error_witness :
  exists w',
    Events.error (EV := Demo.env) Demo.throwing (Ref Demo.row) Demo.ctx Demo.start_world
      = (Return Undefined, w') /\
    heap (st w') !! Demo.row = heap Demo.start !! Demo.row /\
    log w' = [Called (User 0) Demo.throwing [Ref Demo.row; Demo.ctx] Demo.start;
              Sink "error" (Str "boom")].
Proof.
  destruct (error_event_keeps_error (EV := Demo.env) Demo.throwing (Ref Demo.row) Demo.ctx
              Demo.start_world) as (w' & H1 & H2 & H3).
  exists w'. split; [exact H1|]. split.
  - rewrite H2. vm_compute. reflexivity.
  - rewrite H3. vm_compute. reflexivity.
Defined.

Lemma receive_shares_data_witness :
  exists w',
    Events.receive (EV := Demo.env) (Ref Demo.marking_options) (Ref Demo.rows)
      (Ref Demo.result) Demo.ctx Demo.start_world = (Return Undefined, w') /\
    log w' = [Called (User 2) (Ref Demo.marking_options)
                [Ref Demo.rows; Ref Demo.result; Demo.ctx] Demo.start] /\
    read_prop Demo.start (Ref Demo.rows) "seen" = Undefined /\
    read_prop (st w') (Ref Demo.rows) "seen" = Bool true.
Proof.
  destruct (receive_shares_data (EV := Demo.env) (Ref Demo.marking_options) (Ref Demo.rows)
              (Ref Demo.result) Demo.ctx Demo.start_world) as (c & w' & H1 & H2).
  assert (c = Return Undefined) as ->.
  { apply (f_equal fst) in H1. simpl in H1. rewrite <- H1. vm_compute. reflexivity. }
  exists w'. split; [exact H1|].
  assert (w' = (Events.receive (EV := Demo.env) (Ref Demo.marking_options) (Ref Demo.rows)
                  (Ref Demo.result) Demo.ctx Demo.start_world).2) as -> by by rewrite H1.
  split; [|split]; vm_compute; reflexivity.
Defined.

(** The scenario of a task that resolves with 42 under a task handler: the
    handler is called exactly twice, first with [finish] absent, then with
    [finish] present, [success = true] and [result = 42]. *)
Example task_resolving_with_42 :
  let r := Task.run (EV := Demo.env) false Demo.silent (Ref Demo.client) (Str "tag")
             1000 2000 (fun s => (Resolved (Num 42), s)) Demo.start_world in
  r.1 = Return (Resolved (Num 42)) /\
  map (fun ev => match ev with
                 | Called f _ [e] s =>
                     let ctx := read_prop s e "ctx" in
                     Some (f, Task.is_Some_b (Task.field s ctx "finish"),
                           Task.field s ctx "success", Task.field s ctx "result")
                 | _ => None
                 end) (log r.2)
  = [Some (User 1, false, None, None);
     Some (User 1, true, Some (Bool true), Some (Num 42))].
Proof. split; vm_compute; reflexivity. Qed.

(** The scenario of a [query] handler that throws "boom": the query
    rejects and the driver is never asked. *)
Example query_handler_throwing_boom :
  let r := Query.execute (EV := Demo.env) Demo.throwing Demo.ctx (Str "select 1")
             Demo.start_world in
  (exists e, r.1 = Return (Rejected e) /\
             read_prop (st r.2) e "error" = Str "boom") /\
  log r.2 = [Called (User 0) Demo.throwing [Demo.ctx] Demo.start].
Proof.
  split; [exists (Ref 16%positive); split|]; vm_compute; reflexivity.
Qed.

(** Without a throwing handler the driver is asked once, between the two
    notifications. *)
Example query_with_quiet_handlers :
  let r := Query.execute (EV := Demo.env) Demo.silent Demo.ctx (Str "select 1")
             Demo.start_world in
  r.1 = Return (Resolved (Ref Demo.rows)) /\
  map (fun ev => match ev with
                 | Called _ _ args _ => length args
                 | Sink _ _ => 100%nat
                 | Driver _ => 0%nat
                 end) (log r.2) = [1; 0; 3]%nat.
Proof. split; vm_compute; reflexivity. Qed.

(* ===================================================================== *)
(** ** Further properties of the event dispatcher                         *)
(* ===================================================================== *)

Section MoreEvents.
Context {EV : Env}.

(** X1.  For each fire-and-forget event whose handler returns: the dispatch
    returns [undefined] whatever the handler returned, the store is the one
    the handler left, and the only thing observed is the handler call --
    the diagnostic sink is not invoked and nothing is written to the
    console by the dispatcher. *)
Theorem fire_and_forget_quiet options e w f r s1 :
  Events.fire_and_forget e = true ->
  Events.handler_of (st w) options (Events.name_of e) = Some f ->
  Index.run_fn f (Events.receiver_of options e) (Events.arguments_of e) (st w)
    = (Return r, s1) ->
  Events.dispatch options e w =
  (Return Undefined,
   World s1 (log w ++ [Called f (Events.receiver_of options e)
                              (Events.arguments_of e) (st w)])).
Proof.
  intros FF Hh Hr. rewrite fire_and_forget_spec by done.
  unfold isolated. by rewrite Hh, Hr.
Qed.


(** X3.  For [query] and [receive] with a handler: what the dispatch
    returns is truthy exactly when the handler threw -- also when it threw
    [undefined], [null], [false], [0] or the empty string, and never when it
    returned, whatever it returned. *)
Theorem veto_iff_thrown options e w f :
  Events.fire_and_forget e = false ->
  Events.handler_of (st w) options (Events.name_of e) = Some f ->
  exists v w',
    Events.dispatch options e w = (Return v, w') /\
    (truthy v = true <->
     exists x, (Index.run_fn f options (Events.arguments_of e) (st w)).1 = Throw x).
Proof.
  intros FF Hh. rewrite veto_spec by done. unfold vetoing. rewrite Hh.
  destruct (Index.run_fn _ _ _ _) as [[r|x] s1]; simpl.
  - eexists _, _. split; [reflexivity|]. simpl.
    split; [discriminate | intros [? ?]; discriminate].
  - eexists _, _. split; [reflexivity|]. simpl. split; eauto.
Qed.

(** X4.  [query] and [receive] never report to the diagnostic sink and
    never write to the console, whether errors are suppressed or not: no
    sink call is observed, and the console and the suppression flag are as
    the handler left them (as they were, without a handler). *)
Theorem veto_never_reports options e w :
  Events.fire_and_forget e = false ->
  exists v w' observed,
    Events.dispatch options e w = (Return v, w') /\
    log w' = (log w ++ observed)%list /\
    forallb (fun ev => negb (is_sink ev)) observed = true /\
    let after := match Events.handler_of (st w) options (Events.name_of e) with
                 | None => st w
                 | Some f => (Index.run_fn f options (Events.arguments_of e) (st w)).2
                 end in
    console (st w') = console after /\
    suppressErrors (st w') = suppressErrors after.
Proof.
  intros FF. rewrite veto_spec by done. unfold vetoing.
  destruct (Events.handler_of _ _ _) as [f|].
  - destruct (Index.run_fn _ _ _ _) as [[r|x] s1]; simpl.
    + eexists _, _, [_]. split; [reflexivity|]. simpl. auto.
    + eexists _, _, [_]. split; [reflexivity|]. simpl. auto.
  - eexists _, _, []. split; [reflexivity|]. simpl. rewrite app_nil_r. auto.
Qed.

(** X5.  For a thrown primitive -- a string, a number, a boolean, a
    bigint or a symbol, the falsy ones [0], [NaN], [false] and the empty
    string included -- the sink, when errors are not suppressed, writes the
    line naming the event and then that very value. *)
Theorem unexpected_primitive_detail event err w :
  Utils.isNull err = false ->
  (forall l, err <> Ref l) ->
  truthy (suppressErrors (st w)) = false ->
  exists w',
    Events.unexpected event err w = (Return Undefined, w') /\
    console (st w') =
      (console (st w)
       ++ [Str ("Unexpected error in '" ++ event ++ "' event handler."); err])%list.
Proof.
  intros Hn Hp Hs. rewrite unexpected_spec. eexists. split; [reflexivity|].
  simpl. unfold Events.diagnostics, Events.detail, Events.header. rewrite Hs, Hn.
  destruct err; try discriminate; try reflexivity. destruct (Hp l eq_refl).
Qed.

(** X10.  A dispatch calls at most one function, and only the handler
    registered under the name of its own event: a handler that throws is
    not called again, and its failure is not told to the [error] handler
    (nor to any other). *)
Theorem only_own_handler_called options e w :
  exists c w' observed,
    Events.dispatch options e w = (c, w') /\
    log w' = (log w ++ observed)%list /\
    (length (filter (fun ev => is_called ev = true) observed) <= 1)%nat /\
    Forall (fun ev => match ev with
                      | Called f _ _ _ =>
                          Events.handler_of (st w) options (Events.name_of e) = Some f
                      | _ => True
                      end) observed.
Proof.
  destruct (Events.fire_and_forget e) eqn:FF.
  - rewrite fire_and_forget_spec by done. unfold isolated.
    destruct (Events.handler_of _ _ _) as [f|] eqn:Hh.
    + destruct (Index.run_fn _ _ _ _) as [[r|x] s1].
      * eexists _, _, [_]. split; [reflexivity|]. split; [reflexivity|].
        split; [simpl; lia|]. repeat constructor.
      * eexists _, _, [_; _]. split; [reflexivity|]. simpl. rewrite <- app_assoc.
        split; [reflexivity|]. split; [simpl; lia|]. repeat constructor.
    + eexists _, _, []. split; [reflexivity|]. rewrite app_nil_r.
      split; [reflexivity|]. split; [simpl; lia | constructor].
  - rewrite veto_spec by done. unfold vetoing.
    destruct (Events.handler_of _ _ _) as [f|] eqn:Hh.
    + destruct (Index.run_fn _ _ _ _) as [[r|x] s1].
      * eexists _, _, [_]. split; [reflexivity|]. split; [reflexivity|].
        split; [simpl; lia|]. repeat constructor.
      * eexists _, _, [_]. split; [reflexivity|]. split; [reflexivity|].
        split; [simpl; lia|]. repeat constructor.
    + eexists _, _, []. split; [reflexivity|]. rewrite app_nil_r.
      split; [reflexivity|]. split; [simpl; lia | constructor].
Qed.

End MoreEvents.

Lemma fire_and_forget_quiet_witness :
  Events.dispatch (EV := Demo.env) Demo.silent (Events.Connect (Ref Demo.client))
    Demo.start_world =
  (Return Undefined,
   World (Index.run_fn (EV := Demo.env) (User 1) Demo.silent [Ref Demo.client]
            Demo.start).2
         [Called (User 1) Demo.silent [Ref Demo.client] Demo.start]).
Proof.
  apply (fire_and_forget_quiet (EV := Demo.env) Demo.silent
           (Events.Connect (Ref Demo.client)) Demo.start_world (User 1) Undefined).
  - reflexivity.
  - vm_compute. reflexivity.
  - apply from_fst. vm_compute. reflexivity.
Defined.


Lemma veto_iff_thrown_witness :
  exists v w',
    Events.dispatch (EV := Demo.env) Demo.throwing (Events.Query Demo.ctx)
      Demo.start_world = (Return v, w') /\
    truthy v = true.
Proof.
  destruct (veto_iff_thrown (EV := Demo.env) Demo.throwing (Events.Query Demo.ctx)
              Demo.start_world (User 0)) as (v & w' & H1 & H2).
  - reflexivity.
  - vm_compute. reflexivity.
  - exists v, w'. split; [exact H1|]. apply H2. exists (Str "boom").
    vm_compute. reflexivity.
Defined.

Lemma veto_never_reports_witness :
  exists v w',
    Events.dispatch (EV := Demo.env) Demo.throwing (Events.Query Demo.ctx)
      Demo.start_world = (Return v, w') /\
    console (st w') = [].
Proof.
  destruct (veto_never_reports (EV := Demo.env) Demo.throwing (Events.Query Demo.ctx)
              Demo.start_world eq_refl) as (v & w' & obs & H1 & _ & _ & H4 & _).
  exists v, w'. split; [exact H1|]. rewrite H4. vm_compute. reflexivity.
Defined.

Lemma unexpected_primitive_detail_witness :
  exists w',
    Events.unexpected "connect" (Num 0) Demo.start_world = (Return Undefined, w') /\
    console (st w') = [Str "Unexpected error in 'connect' event handler."; Num 0].
Proof.
  apply (unexpected_primitive_detail "connect" (Num 0) Demo.start_world).
  - reflexivity.
  - discriminate.
  - reflexivity.
Defined.

Lemma only_own_handler_called_witness :
  exists c w' observed,
    Events.dispatch (EV := Demo.env) Demo.throwing (Events.Connect (Ref Demo.client))
      Demo.start_world = (c, w') /\
    log w' = observed /\
    (length (filter (fun ev => is_called ev = true) observed) <= 1)%nat.
Proof.
  destruct (only_own_handler_called (EV := Demo.env) Demo.throwing
              (Events.Connect (Ref Demo.client)) Demo.start_world)
    as (c & w' & obs & H1 & H2 & H3 & _).
  exists c, w', obs. split; [exact H1|]. split; [exact H2 | exact H3].
Defined.

(* ===================================================================== *)
(** ** Further properties of library initialisation                       *)
(* ===================================================================== *)

Section MoreInit.
Context {EV : Env}.

Lemma typeof_string s v : typeof s v = "string" -> exists str, v = Str str.
Proof.
  destruct v; simpl; try discriminate; eauto.
  destruct (kind_of s l) as [[]|]; discriminate.
Qed.

(** The validation on a string: the parser is asked, and the string passes
    for a connection string unless the parser answers with nothing or with
    a database that is the string itself. *)
Lemma check_options_string str w :
  Index.check_options (Str str) w =
  (let w1 := World (retain (st w) (pgCS_parse str (st w)).2) (log w) in
   let cn := (pgCS_parse str (st w)).1 in
   if truthy cn && negb (Index.strict_eq (read_prop (st w1) cn "database") (Str str))
   then (Return (Bool true), w1)
   else throw_TypeError Index.msg_invalid_options w1).
Proof.
  unfold Index.check_options. simpl. unfold bind at 1. unfold get_state at 1.
  simpl. unfold bind at 1. unfold bind at 1. unfold lift at 1.
  destruct (pgCS_parse str (st w)) as [cn s1]. simpl.
  destruct (truthy cn) eqn:T; simpl.
  - unfold bind at 1. rewrite get_prop_truthy by done. simpl.
    unfold bind, get_state, ret. simpl.
    by destruct (Index.strict_eq _ _).
  - unfold bind, get_state, ret. simpl. by rewrite T.
Qed.

Lemma check_options_object options w :
  Utils.isNull options = false ->
  typeof (st w) options = "object" ->
  Index.check_options options w =
  (Return (Bool (has_property (st w) options "host" ||
                 has_property (st w) options "database")), w).
Proof.
  intros Hn Ho. unfold Index.check_options, bind, get_state. rewrite Hn. simpl.
  rewrite Ho. simpl. rewrite Ho. reflexivity.
Qed.

Lemma check_options_other options w :
  Utils.isNull options = false ->
  typeof (st w) options <> "object" ->
  typeof (st w) options <> "string" ->
  Index.check_options options w = throw_TypeError Index.msg_invalid_options w.
Proof.
  intros Hn Ho Hs. unfold Index.check_options, bind, get_state. rewrite Hn. simpl.
  rewrite (String_eqb_false _ _ Hs). simpl. by rewrite (String_eqb_false _ _ Ho).
Qed.

(** When the validation returns, it returns a truthy flag, or the options
    were acceptable and the flag is falsy. *)
Lemma validation_accepts_or_flags options w v w' :
  Index.check_options options w = (Return v, w') ->
  truthy v = true \/ (acceptable_options (st w) options = true /\ truthy v = false).
Proof.
  intros Hc. unfold acceptable_options.
  destruct (Utils.isNull options) eqn:Hn.
  { right. unfold Index.check_options in Hc. rewrite Hn in Hc.
    injection Hc as <- <-. done. }
  destruct (decide (typeof (st w) options = "string")) as [Hs|Hs].
  - apply typeof_string in Hs as [str ->]. rewrite check_options_string in Hc.
    simpl in Hc. destruct (truthy _ && _).
    + left. by injection Hc as <- <-.
    + destruct (@throw_TypeError_spec value Index.msg_invalid_options
                  (World (retain (st w) (pgCS_parse str (st w)).2) (log w)))
        as (e & w'' & H1 & _).
      rewrite H1 in Hc. discriminate.
  - destruct (decide (typeof (st w) options = "object")) as [Ho|Ho].
    + rewrite check_options_object in Hc by done. injection Hc as <- <-.
      rewrite Ho. simpl.
      destruct (has_property (st w) options "host"); [by left|].
      destruct (has_property (st w) options "database"); [by left | by right].
    + rewrite check_options_other in Hc by done.
      destruct (@throw_TypeError_spec value Index.msg_invalid_options w)
        as (e & w'' & H1 & _).
      rewrite H1 in Hc. discriminate.
Qed.

Lemma main_after_check ns options w :
  (forall v w', Index.check_options options w = (Return v, w') -> truthy v = true) ->
  exists e w',
    Index.main ns options w = (Throw e, w') /\
    is_TypeError (st w') e Index.msg_invalid_options
    || is_TypeError (st w') e Index.msg_invalid_init = true.
Proof.
  intros Hc. unfold Index.main, bind.
  destruct (Index.check_options options w) as [[v|x] w1] eqn:E.
  - rewrite (Hc v w1 eq_refl).
    destruct (@throw_TypeError_spec value Index.msg_invalid_init w1)
      as (e & w' & H1 & H2 & _).
    exists e, w'. split; [exact H1|]. rewrite H2. apply orb_true_r.
  - exists x, w1. split; [reflexivity|].
    (* the validation itself threw: which error it was follows by cases *)
    destruct (Utils.isNull options) eqn:Hn.
    { unfold Index.check_options in E. rewrite Hn in E. discriminate. }
    destruct (decide (typeof (st w) options = "string")) as [Hs|Hs].
    + apply typeof_string in Hs as [str ->]. rewrite check_options_string in E.
      simpl in E. destruct (truthy _ && _); [discriminate|].
      destruct (@throw_TypeError_spec value Index.msg_invalid_options
                  (World (retain (st w) (pgCS_parse str (st w)).2) (log w)))
        as (e & w' & H1 & H2 & _).
      rewrite H1 in E. injection E as <- <-. by rewrite H2.
    + destruct (decide (typeof (st w) options = "object")) as [Ho|Ho].
      * rewrite check_options_object in E by done. discriminate.
      * rewrite check_options_other in E by done.
        destruct (@throw_TypeError_spec value Index.msg_invalid_options w)
          as (e & w' & H1 & H2 & _).
        rewrite H1 in E. injection E as <- <-. by rewrite H2.
Qed.

(** X6.  [$main] accepts no string: for every string the parser of
    connection strings is asked, and [$main] throws -- the TypeError
    "Invalid library initialization: ..." when the parser answers with a
    connection whose database is not the string itself, and the TypeError
    "Invalid initialization options." otherwise. *)
Theorem main_rejects_strings ns str w cn s1 :
  pgCS_parse str (st w) = (cn, s1) ->
  exists e w',
    Index.main ns (Str str) w = (Throw e, w') /\
    is_TypeError (st w') e
      (if truthy cn &&
          negb (Index.strict_eq (read_prop (retain (st w) s1) cn "database") (Str str))
       then "Invalid library initialization: must initialize the library before creating a database object."
       else "Invalid initialization options.") = true.
Proof.
  intros Hp. unfold Index.main, bind. rewrite check_options_string, Hp. simpl.
  destruct (truthy cn && _).
  - simpl.
    destruct (@throw_TypeError_spec value Index.msg_invalid_init
                (World (retain (st w) s1) (log w))) as (e & w' & H1 & H2 & _).
    exists e, w'. split; [exact H1 | exact H2].
  - destruct (@throw_TypeError_spec value Index.msg_invalid_options
                (World (retain (st w) s1) (log w))) as (e & w' & H1 & H2 & _).
    exists e, w'. unfold bind in H1. split; [|exact H2].
    unfold throw_TypeError, bind in *.
    destruct (alloc _ _) as [[a|x] wa]; exact H1.
Qed.


End MoreInit.

Section Kinds.
Context {EV : Env}.

Lemma keeps_kind_ret {A} (a : A) : keeps_kind (ret a).
Proof. intros w l k H. exact H. Qed.

Lemma keeps_kind_get_state : keeps_kind get_state.
Proof. intros w l k H. exact H. Qed.

Lemma keeps_kind_bind {A B} (m : M A) (f : A -> M B) :
  keeps_kind m -> (forall a, keeps_kind (f a)) -> keeps_kind (bind m f).
Proof.
  intros Hm Hf w l k H. unfold bind. specialize (Hm w l k H).
  destruct (m w) as [[a|x] w1]; simpl in *; [by apply Hf | exact Hm].
Qed.

Lemma keeps_kind_alloc o : keeps_kind (alloc o).
Proof.
  intros w l k H. unfold kind_of in *. simpl.
  rewrite lookup_insert_ne; [exact H|]. intros <-.
  rewrite fresh_loc_None in H. discriminate.
Qed.

Lemma keeps_kind_throw_TypeError {A} msg : keeps_kind (@throw_TypeError A msg).
Proof.
  unfold throw_TypeError. apply keeps_kind_bind; [apply keeps_kind_alloc|].
  intros a w l k H. exact H.
Qed.

Lemma keeps_kind_write l name x : keeps_kind (modify (write_prop l name x)).
Proof.
  intros w l' k H. unfold kind_of in *. simpl.
  destruct (decide (l = l')) as [<-|Hne].
  - rewrite lookup_alter_eq. destruct (heap (st w) !! l); [exact H | discriminate].
  - by rewrite lookup_alter_ne.
Qed.

Lemma keeps_kind_set_prop v name x : keeps_kind (set_prop v name x).
Proof.
  destruct v; simpl; try apply keeps_kind_throw_TypeError.
  apply keeps_kind_bind; [apply keeps_kind_get_state|]. intros s.
  destruct (heap s !! l) as [o|]; [|apply keeps_kind_ret].
  destruct (props o !! name) as [p|].
  - destruct (writable p); [apply keeps_kind_write | apply keeps_kind_throw_TypeError].
  - destruct (extensible o); [apply keeps_kind_write | apply keeps_kind_throw_TypeError].
Qed.

Lemma keeps_kind_addProperties target source :
  keeps_kind (Utils.addProperties target source).
Proof.
  unfold Utils.addProperties. apply keeps_kind_bind; [apply keeps_kind_get_state|].
  intros s. destruct source; try apply keeps_kind_ret.
  destruct (heap s !! l) as [o|]; [|apply keeps_kind_ret].
  induction (map_to_list (props o)) as [|[name p] ps IH]; simpl;
    [apply keeps_kind_ret|].
  apply keeps_kind_bind; [apply keeps_kind_set_prop | intros; exact IH].
Qed.

Lemma keeps_kind_lock target deep : keeps_kind (Utils.lock target deep).
Proof.
  unfold Utils.lock. apply keeps_kind_bind; [apply keeps_kind_get_state|].
  intros s. destruct (noLocking s); [apply keeps_kind_ret|].
  destruct target; try apply keeps_kind_ret.
  intros w l' k H. unfold kind_of in *. simpl. rewrite lock_set_lookup.
  destruct (heap (st w) !! l') as [o|]; [|discriminate]. simpl in *.
  by destruct (decide _).
Qed.

(** X8.  Whenever [$main] returns, what it returns is a function created
    by this very call -- an object that was not in the store before --
    whose body is [inst] closed over the [options] given; and [options]
    was one of the acceptable values. *)
Theorem main_returns_new_function ns options w inst w1 :
  Index.main ns options w = (Return inst, w1) ->
  exists l,
    inst = Ref l /\
    heap (st w) !! l = None /\
    kind_of (st w1) l = Some (KFunction (Inst options)) /\
    typeof (st w1) inst = "function" /\
    acceptable_options (st w) options = true.
Proof.
  intros Hm.
  assert (acceptable_options (st w) options = true) as Hacc.
  { destruct (acceptable_options (st w) options) eqn:Ha; [done|].
    destruct (main_after_check ns options w) as (e & w' & H1 & _).
    - intros v w' Hc.
      pose proof (validation_accepts_or_flags options w v w' Hc) as [Hv|[Hv _]];
        [exact Hv | congruence].
    - rewrite H1 in Hm. discriminate. }
  revert Hm. unfold Index.main. unfold bind at 1.
  destruct (Index.check_options options w) as [[v|v] wa] eqn:Hc; [|discriminate].
  destruct (tame_run _ _ _ _ (tame_check_options options) Hc) as [Hda _].
  destruct (truthy v).
  { destruct (@throw_TypeError_spec value Index.msg_invalid_init wa)
      as (e & w' & -> & _). discriminate. }
  unfold bind at 1. unfold get_state at 1. unfold bind at 1.
  destruct (lift _ wa) as [[[]|v'] wb] eqn:Hl; [|discriminate].
  destruct (tame_run _ _ _ _ (tame_lift _) Hl) as [Hdb _].
  unfold bind at 1. unfold alloc at 1.
  set (l := fresh_loc (st wb)).
  set (wc := World (set_heap (<[l := _]> (heap (st wb))) (st wb)) (log wb)).
  assert (kind_of (st wc) l = Some (KFunction (Inst options))) as Hk.
  { unfold kind_of. subst wc. simpl. by rewrite lookup_insert_eq. }
  unfold bind at 1.
  pose proof (keeps_kind_addProperties (Ref l) ns wc l _ Hk) as Hk1.
  destruct (Utils.addProperties (Ref l) ns wc) as [[[]|v''] wd]; [|discriminate].
  unfold bind.
  pose proof (keeps_kind_lock (Ref l) false wd l _ Hk1) as Hk2.
  destruct (Utils.lock (Ref l) false wd) as [[[]|v3] we]; [|discriminate].
  intros [= <- <-]. exists l. split; [done|]. simpl in Hk2.
  split; [|split; [exact Hk2 | split; [|exact Hacc]]].
  - apply not_elem_of_dom. intros Hin. apply Hda, Hdb in Hin.
    apply elem_of_dom in Hin as [o Ho]. subst l.
    rewrite fresh_loc_None in Ho. discriminate.
  - simpl. by rewrite Hk2.
Qed.

(** X9.  [$main] does not catch what the promise set-up throws: with
    acceptable options, a value thrown while the promise library is set up
    is thrown by [$main] as it is, and no instance is created -- the store
    is the one the set-up left. *)
Theorem main_propagates_promise_failure ns options w x s1 :
  acceptable_options (st w) options = true ->
  promise_init (if truthy options then read_prop (st w) options "promiseLib" else Null)
    (st w) = (Throw x, s1) ->
  Index.main ns options w = (Throw x, World (retain (st w) s1) (log w)).
Proof.
  intros Ha Hp.
  assert (exists v, Index.check_options options w = (Return v, w) /\ truthy v = false)
    as (v & Hc & Hv).
  { unfold acceptable_options in Ha. destruct (Utils.isNull options) eqn:Hn.
    - exists Undefined. unfold Index.check_options. rewrite Hn. done.
    - simpl in Ha. apply andb_true_iff in Ha as [Ha Hd].
      apply andb_true_iff in Ha as [Ho Hh]. apply String.eqb_eq in Ho.
      rewrite check_options_object by done.
      apply negb_true_iff in Hh, Hd. rewrite Hh, Hd. eauto. }
  unfold Index.main. unfold bind at 1. rewrite Hc, Hv.
  unfold bind at 1. unfold get_state at 1. unfold bind at 1. unfold lift at 1.
  simpl. rewrite Hp. reflexivity.
Qed.

End Kinds.

Lemma main_rejects_strings_witness :
  exists e w',
    Index.main (EV := Demo.env_parsing) (Ref Demo.module_as)
      (Str "postgres://localhost/db") Demo.start_world = (Throw e, w') /\
    is_TypeError (st w') e
      "Invalid library initialization: must initialize the library before creating a database object."
      = true.
Proof.
  apply (main_rejects_strings (EV := Demo.env_parsing) (Ref Demo.module_as)
           "postgres://localhost/db" Demo.start_world
           (Ref Demo.connection_options) Demo.start).
  reflexivity.
Defined.


Lemma main_returns_new_function_witness :
  exists l,
    heap Demo.start !! l = None /\
    typeof (st (Index.main (EV := Demo.env) (Ref Demo.module_as) Undefined
                  Demo.start_world).2) (Ref l) = "function".
Proof.
  destruct (main_returns_new_function (EV := Demo.env) (Ref Demo.module_as) Undefined
              Demo.start_world (Ref (fresh_loc Demo.start))
              (Index.main (EV := Demo.env) (Ref Demo.module_as) Undefined
                 Demo.start_world).2) as (l & Hl & Hn & _ & Ht & _).
  - apply from_fst. vm_compute. reflexivity.
  - exists l. split; [exact Hn | rewrite <- Hl; exact Ht].
Defined.

Lemma main_propagates_promise_failure_witness :
  Index.main (EV := Demo.env_failing) (Ref Demo.module_as) Null Demo.start_world =
  (Throw (Str "Invalid promise library override."),
   World (retain Demo.start Demo.start) []).
Proof.
  apply (main_propagates_promise_failure (EV := Demo.env_failing) (Ref Demo.module_as)
           Null Demo.start_world).
  - reflexivity.
  - reflexivity.
Defined.
